(** * FESTIM meshing: a shallow embedding of [FESTIM/meshing.py]

    The module builds a one-dimensional mesh (uniform, from explicit
    vertices, read from a file or handed over ready-made), refines it by
    bisection left of a point until a target cell count is reached,
    validates the material borders and tags cells and facets.

    Conventions of the embedding:
    - Python scalars that take part in arithmetic (coordinates, sizes,
      refinement points) are exact rationals [Q]; comparisons are the
      boolean ones of [QArith].
    - The midpoint of a cell is computed by the finite-element library in
      floating point.  It is a parameter of the development, so that the
      properties hold for the value the library returns, whatever its
      rounding; a property that needs the midpoint to lie between the
      end points of the cell says so.
    - Python integers (cell counts) are [Z].
    - Border values keep the Python distinction between [int] and
      [float], because [check_borders] tests object identity against the
      literal [0].
    - A dict with optional keys is a record of [option] fields; a missing
      key read with [d[k]] raises [KeyError].
    - Exceptions and the unbounded [while] loop are made explicit by the
      three-way [outcome] type: a value, a raised exception, or fuel
      exhausted. *)

From Stdlib Require Import QArith Qabs Lqa ZArith Lia List String.
From Stdlib Require Import Sorting.Permutation Sorting.Sorted SetoidList.
From stdpp Require Import base list.
Import ListNotations.

Local Open Scope string_scope.
Local Open Scope Z_scope.
Local Open Scope Q_scope.

(** ** Outcomes: values, exceptions, and running out of fuel *)

Inductive exn : Type :=
| KeyError (key : string)
| ValueError (msg : string)
| RuntimeError (msg : string)
| TypeError (msg : string)
| IndexError (msg : string).

Inductive outcome (A : Type) : Type :=
| Ret (a : A)
| Raise (e : exn)
| OutOfFuel.

Arguments Ret {A} a.
Arguments Raise {A} e.
Arguments OutOfFuel {A}.

Definition bind {A B : Type} (c : outcome A) (k : A -> outcome B) : outcome B :=
  match c with
  | Ret a => k a
  | Raise e => Raise e
  | OutOfFuel => OutOfFuel
  end.

Notation "'let*' x ':=' c 'in' k" := (bind c (fun x => k))
  (at level 10, x name, c at level 100, k at level 200).

(** [d[key]] on a dict whose key may be absent. *)
Definition getitem {A : Type} (key : string) (field : option A) : outcome A :=
  match field with
  | Some a => Ret a
  | None => Raise (KeyError key)
  end.

(** ** Scalars *)

Definition Qlt_bool (x y : Q) : bool := negb (Qle_bool y x).

(** ** Meshes

    A one-dimensional mesh as the finite-element library stores it: the
    vertex coordinates, indexed by vertex number, and the cells, each a
    pair of vertex numbers.  In one dimension the facets are the
    vertices. *)

Record Mesh : Type := mkMesh {
  coordinates : list Q;
  cells : list (nat * nat)
}.

Definition num_vertices (m : Mesh) : nat := length (coordinates m).
Definition num_cells (m : Mesh) : nat := length (cells m).

(** Coordinate of vertex [i]; the library only builds meshes whose cells
    name existing vertices, so the default is never read on them. *)
Definition coord (m : Mesh) (i : nat) : Q := nth i (coordinates m) 0.

(** The exact mean: the midpoint in exact arithmetic. *)
Definition exact_midpoint (a b : Q) : Q := (a + b) / 2.

(** The library computes the midpoint of a cell, and the position of the
    vertex that bisects it, in floating point.  The development takes
    that computation as a parameter: [midpoint_x a b] is the midpoint the
    library returns for a cell with end points [a] and [b].  What a
    property needs of it is a hypothesis of that property. *)
Section Library.
Variable midpoint_x : Q -> Q -> Q.

#[local] Set Default Proof Using "Type".

(** [cell.midpoint().x()] for a cell given by its two vertex numbers. *)
Definition midpoint (m : Mesh) (c : nat * nat) : Q :=
  midpoint_x (coord m (fst c)) (coord m (snd c)).

(** [cell.midpoint().x()] for the cell with index [i]. *)
Definition cell_midpoint (m : Mesh) (i : nat) : Q :=
  midpoint m (nth i (cells m) (O, O)).

(** ** Loops over entity indices

    [for i in range(n): body] threading the array the body assigns to. *)
Definition for_range {A : Type} (n : nat) (body : nat -> A -> A) (a : A) : A :=
  fold_left (fun acc i => body i acc) (seq 0 n) a.

(** ** Uniform interval mesh *)

(** Modelled from the spec: [IntervalMesh(n, a, b)] belongs to the
    finite-element library, which is not part of this repository.  It
    fails unless the cell count and the length are positive, and
    otherwise yields [n + 1] evenly spaced vertices over [[a, b]] with
    cell [i] joining vertex [i] and vertex [i + 1]. *)
Definition IntervalMesh (n : Z) (a b : Q) : outcome Mesh :=
  if (n <=? 0)%Z then
    Raise (RuntimeError "Interval mesh: number of cells must be at least 1")
  else if Qle_bool b a then
    Raise (RuntimeError "Interval mesh: length of interval must be positive")
  else
    Ret {| coordinates :=
             map (fun i => a + inject_Z (Z.of_nat i) * (b - a) / inject_Z n)
                 (seq 0 (S (Z.to_nat n)));
           cells := map (fun i => (i, S i)) (seq 0 (Z.to_nat n)) |}.

(** ** Refinement by bisection *)

(** Modelled from the spec: [refine(mesh, cell_markers)] belongs to the
    finite-element library.  Every marked cell is replaced by two cells
    that meet at its midpoint; unmarked cells pass through unchanged
    (spec 4.3).  The refined mesh keeps the vertices in their order along
    the domain, cell [i] joining vertex [i] and vertex [i + 1] (spec 3):
    the vertex that bisects the cell at position [i] comes right after
    vertex [i], and every later vertex moves up by the number of vertices
    inserted before it.  [refine_vertices] walks the vertices with the
    cells and the markers at the same positions; [inserted] counts the
    vertices inserted so far. *)
Fixpoint refine_vertices (m : Mesh) (coords : list Q) (cs : list (nat * nat))
    (marks : list bool) : list Q :=
  match coords with
  | [] => []
  | q :: coords' =>
      match cs, marks with
      | c :: cs', true :: marks' =>
          q :: midpoint m c :: refine_vertices m coords' cs' marks'
      | _ :: cs', _ :: marks' => q :: refine_vertices m coords' cs' marks'
      | _, _ => coords
      end
  end.

Fixpoint refine_cells (inserted : nat) (cs : list (nat * nat))
    (marks : list bool) : list (nat * nat) :=
  match cs with
  | [] => []
  | c :: cs' =>
      match marks with
      | true :: marks' =>
          (fst c + inserted, S (fst c + inserted))%nat
          :: (S (fst c + inserted), S (snd c + inserted))%nat
          :: refine_cells (S inserted) cs' marks'
      | _ :: marks' =>
          (fst c + inserted, snd c + inserted)%nat
          :: refine_cells inserted cs' marks'
      | [] =>
          (fst c + inserted, snd c + inserted)%nat
          :: refine_cells inserted cs' []
      end
  end.

Definition refine (m : Mesh) (cell_markers : list bool) : Mesh :=
  {| coordinates := refine_vertices m (coordinates m) (cells m) cell_markers;
     cells := refine_cells 0 (cells m) cell_markers |}.

(** The marking pass of [mesh_and_refine]: a fresh all-[False] marker
    array, then [cell_markers[cell] = True] for every cell whose midpoint
    is strictly left of the refinement point. *)
Definition mark_cells (m : Mesh) (refinement_point : Q) : list bool :=
  for_range (num_cells m)
    (fun cell cell_markers =>
       if Qlt_bool (cell_midpoint m cell) refinement_point
       then <[cell := true]> cell_markers
       else cell_markers)
    (replicate (num_cells m) false).

Record Refinement : Type := mkRefinement {
  r_cells : Z;   (* refinement["cells"] *)
  r_x : Q        (* refinement["x"] *)
}.

(** The [while] loop of one refinement; [fuel] bounds the number of
    times the loop condition is evaluated. *)
Fixpoint refine_while (fuel : nat) (target : Z) (refinement_point : Q)
    (m : Mesh) : outcome Mesh :=
  match fuel with
  | O => OutOfFuel
  | S fuel' =>
      if (Z.of_nat (num_cells m) <? target)%Z then
        refine_while fuel' target refinement_point
          (refine m (mark_cells m refinement_point))
      else Ret m
  end.

(** The [for refinement in ...] loop; [initial_number_of_cells] is
    reassigned to the current cell count after each refinement. *)
Fixpoint refine_for (fuel : nat) (refinements : list Refinement)
    (initial_number_of_cells : Z) (m : Mesh) : outcome Mesh :=
  match refinements with
  | [] => Ret m
  | refinement :: rest =>
      let* m' := refine_while fuel (initial_number_of_cells + r_cells refinement)
                              (r_x refinement) m in
      refine_for fuel rest (Z.of_nat (num_cells m')) m'
  end.

(** ** Configuration *)

(** A value stored under the ["mesh"] key: a mesh object, or anything
    else (for which [isinstance(_, type(Mesh()))] is false). *)
Inductive MeshValue : Type :=
| IsMesh (m : Mesh)
| NotAMesh.

(** A value stored under ["meshfunction_cells"] / ["meshfunction_facets"]. *)
Inductive MarkerValue : Type :=
| IsMeshFunction (tags : list nat)
| NotAMeshFunction.

Record MeshParameters : Type := mkMeshParameters {
  p_mesh_file : option string;
  p_mesh : option MeshValue;
  p_vertices : option (list Q);
  p_initial_number_of_cells : option Z;
  p_size : option Q;
  p_refinements : option (list Refinement);
  p_cells_file : option string;
  p_facets_file : option string;
  p_meshfunction_cells : option MarkerValue;
  p_meshfunction_facets : option MarkerValue
}.

Definition mesh_and_refine (fuel : nat) (mesh_parameters : MeshParameters)
    : outcome Mesh :=
  let* initial_number_of_cells :=
    getitem "initial_number_of_cells" (p_initial_number_of_cells mesh_parameters) in
  let* size := getitem "size" (p_size mesh_parameters) in
  let* mesh := IntervalMesh initial_number_of_cells 0 size in
  match p_refinements mesh_parameters with
  | Some refinements => refine_for fuel refinements initial_number_of_cells mesh
  | None => Ret mesh
  end.

(** ** Sorting

    Python's [sorted] is stable; insertion from the right, placing an
    element before the first one whose key is not smaller, is a stable
    sort with the same result. *)
Section Sorted.
Context {A : Type} (key : A -> Q).

Fixpoint insert_by (x : A) (l : list A) : list A :=
  match l with
  | [] => [x]
  | y :: l' =>
      if Qle_bool (key x) (key y) then x :: l else y :: insert_by x l'
  end.

Definition sorted_by (l : list A) : list A := fold_right insert_by [] l.

(** The order of the keys. *)
Definition key_le (a b : A) : Prop := key a <= key b.
End Sorted.

Definition sorted (l : list Q) : list Q := sorted_by (fun x => x) l.

(** [np.unique]: sort, then keep the first of each run of equal values. *)
Fixpoint drop_repeats_of (prev : Q) (l : list Q) : list Q :=
  match l with
  | [] => []
  | y :: l' =>
      if Qeq_bool prev y then drop_repeats_of prev l'
      else y :: drop_repeats_of y l'
  end.

Definition drop_repeats (l : list Q) : list Q :=
  match l with
  | [] => []
  | x :: l' => x :: drop_repeats_of x l'
  end.

Definition np_unique (l : list Q) : list Q := drop_repeats (sorted l).

(** [max(l)] of Python: the first largest element; an empty argument
    raises. *)
Definition py_max (l : list Q) : outcome Q :=
  match l with
  | [] => Raise (ValueError "max() arg is an empty sequence")
  | x :: l' => Ret (fold_left (fun best y => if Qlt_bool best y then y else best) l' x)
  end.

(** ** Mesh from explicit vertices *)

(** The mesh editor allocates [nb_points] vertices and [nb_cells] cells
    and the two loops fill them in by index.  For an empty vertex list
    [nb_cells] is [-1], which the editor's unsigned argument rejects. *)
Definition generate_mesh_from_vertices (vertices : list Q) : outcome Mesh :=
  let vertices := sorted (np_unique vertices) in
  let nb_points := length vertices in
  match nb_points with
  | O => Raise (TypeError "init_cells: incompatible function arguments")
  | S nb_cells =>
      let vs :=
        for_range nb_points (fun i vs => <[i := nth i vertices 0]> vs)
                  (replicate nb_points 0) in
      let cs :=
        for_range nb_cells (fun j cs => <[j := (j, S j)]> cs)
                  (replicate nb_cells (O, O)) in
      Ret {| coordinates := vs; cells := cs |}
  end.

(** ** Materials and border validation *)

(** A Python number as found in a ["borders"] list. *)
Inductive num : Type :=
| PyInt (z : Z)
| PyFloat (q : Q).

Definition num_val (a : num) : Q :=
  match a with
  | PyInt z => inject_Z z
  | PyFloat q => q
  end.

(** [a is 0]: identity with the integer object zero.  Only the [int] 0
    is that object; a [float] never is, whatever its value. *)
Definition is_int_zero (a : num) : bool :=
  match a with
  | PyInt 0 => true
  | _ => false
  end.

(** [a != b] on Python numbers compares values. *)
Definition num_neq (a b : Q) : bool := negb (Qeq_bool a b).

Record Material : Type := mkMaterial {
  m_id : nat;               (* material["id"] *)
  m_borders : num * num     (* material["borders"] = [low, high] *)
}.

Definition msg_begin_at_zero : string := "Borders don't begin at zero".
Definition msg_match_each_other : string := "Borders don't match to each other".
Definition msg_match_size : string := "Borders don't match with size".

(** [for i in range(0, len(all_borders)-1)]: the adjacent pairs, left to
    right. *)
Fixpoint check_adjacent (all_borders : list (num * num)) : outcome unit :=
  match all_borders with
  | b :: (b' :: _) as rest =>
      if num_neq (num_val (snd b)) (num_val (fst b'))
      then Raise (ValueError msg_match_each_other)
      else check_adjacent rest
  | _ => Ret tt
  end.

Definition check_borders (size : Q) (materials : list Material) : outcome bool :=
  let all_borders := map m_borders materials in
  let all_borders := sorted_by (fun b => num_val (fst b)) all_borders in
  match all_borders with
  | [] => Raise (IndexError "list index out of range")
  | first :: _ =>
      if negb (is_int_zero (fst first)) then
        Raise (ValueError msg_begin_at_zero)
      else
        let* _ := check_adjacent all_borders in
        if num_neq (num_val (snd (List.last all_borders first))) size then
          Raise (ValueError msg_match_size)
        else Ret true
  end.

(** ** Tagging *)

Definition DOLFIN_EPS : Q := 3 # 10000000000000000.

(** Modelled from the spec: [near(x, x0)] belongs to the finite-element
    library; it holds when [x] coincides with [x0] within the library's
    tolerance [DOLFIN_EPS]. *)
Definition near (x x0 : Q) : bool :=
  Qle_bool (x0 - DOLFIN_EPS) x && Qle_bool x (x0 + DOLFIN_EPS).

(** The cell loop of [subdomains_1D], on the marker array it assigns to. *)
Definition tag_cells (mesh : Mesh) (materials : list Material)
    (volume_markers : list nat) : list nat :=
  for_range (num_cells mesh)
    (fun cell volume_markers =>
       fold_left
         (fun volume_markers material =>
            if (length materials =? 1)%nat then
              <[cell := m_id material]> volume_markers
            else if Qle_bool (num_val (fst (m_borders material))) (cell_midpoint mesh cell)
                    && Qle_bool (cell_midpoint mesh cell) (num_val (snd (m_borders material)))
            then <[cell := m_id material]> volume_markers
            else volume_markers)
         materials volume_markers)
    volume_markers.

(** The facet loop of [subdomains_1D]. *)
Definition tag_facets (mesh : Mesh) (size : Q) (surface_markers : list nat)
    : list nat :=
  for_range (num_vertices mesh)
    (fun f surface_markers =>
       let x0 := coord mesh f in
       let surface_markers := <[f := 0%nat]> surface_markers in
       let surface_markers :=
         if near x0 0 then <[f := 1%nat]> surface_markers else surface_markers in
       if near x0 size then <[f := 2%nat]> surface_markers else surface_markers)
    surface_markers.

Definition subdomains_1D (mesh : Mesh) (materials : list Material) (size : Q)
    : list nat * list nat :=
  let volume_markers := replicate (num_cells mesh) 0%nat in
  let volume_markers := tag_cells mesh materials volume_markers in
  let surface_markers := replicate (num_vertices mesh) 0%nat in
  let surface_markers := tag_facets mesh size surface_markers in
  (volume_markers, surface_markers).

Record Parameters : Type := mkParameters {
  params_mesh_parameters : MeshParameters;   (* parameters["mesh_parameters"] *)
  params_materials : list Material           (* parameters["materials"] *)
}.

(** ** Entry points that may read files

    Reading an XDMF file is the library's business; the two readers are
    parameters of the development. *)
Section Files.
Variable XDMFFile_read_mesh : string -> outcome Mesh.
Variable read_subdomains_from_xdmf :
  Mesh -> string -> string -> outcome (MarkerValue * MarkerValue).

Definition create_mesh (fuel : nat) (mesh_parameters : MeshParameters)
    : outcome Mesh :=
  match p_mesh_file mesh_parameters with
  | Some mesh_file => XDMFFile_read_mesh mesh_file
  | None =>
      match p_mesh mesh_parameters with
      | Some (IsMesh mesh) => Ret mesh
      | _ =>
          match p_vertices mesh_parameters with
          | Some vertices => generate_mesh_from_vertices vertices
          | None => mesh_and_refine fuel mesh_parameters
          end
      end
  end.

Definition subdomains (mesh : Mesh) (parameters : Parameters)
    : outcome (MarkerValue * MarkerValue) :=
  let mesh_parameters := params_mesh_parameters parameters in
  match p_cells_file mesh_parameters with
  | Some cells_file =>
      let* facets_file := getitem "facets_file" (p_facets_file mesh_parameters) in
      read_subdomains_from_xdmf mesh cells_file facets_file
  | None =>
      match p_meshfunction_cells mesh_parameters with
      | Some (IsMeshFunction volume_markers) =>
          let* surface_markers :=
            getitem "meshfunction_facets" (p_meshfunction_facets mesh_parameters) in
          Ret (IsMeshFunction volume_markers, surface_markers)
      | _ =>
          let* size :=
            match p_vertices mesh_parameters with
            | Some vertices => py_max vertices
            | None => getitem "size" (p_size mesh_parameters)
            end in
          let* _ :=
            if (1 <? length (params_materials parameters))%nat
            then check_borders size (params_materials parameters)
            else Ret true in
          let r := subdomains_1D mesh (params_materials parameters) size in
          Ret (IsMeshFunction (fst r), IsMeshFunction (snd r))
      end
  end.
End Files.

(** The end-to-end scenario: 10 cells over [[0, 1]], 5 more cells left
    of [0.3]. *)
Definition example_parameters : MeshParameters :=
  {| p_mesh_file := None; p_mesh := None; p_vertices := None;
     p_initial_number_of_cells := Some 10%Z; p_size := Some 1;
     p_refinements := Some [ {| r_cells := 5; r_x := 3 # 10 |} ];
     p_cells_file := None; p_facets_file := None;
     p_meshfunction_cells := None; p_meshfunction_facets := None |}.

(** * Vocabulary of the properties *)

(** Nothing usable under ["mesh"]: the key is absent or its value is
    not a mesh object. *)
Definition not_a_mesh (v : option MeshValue) : Prop :=
  v = None \/ v = Some NotAMesh.

(** The cell is marked for bisection: its midpoint is strictly left of
    the refinement point. *)
Definition marked (m : Mesh) (x : Q) (c : nat * nat) : bool :=
  Qlt_bool (midpoint m c) x.

(** The body of the [while] loop: mark, then refine. *)
Definition refine_step (m : Mesh) (x : Q) : Mesh := refine m (mark_cells m x).

(** The cells of a mesh as the spec has them: cell [j] joins vertex [j]
    and vertex [j + 1]. *)
Definition chain_cells (first k : nat) : list (nat * nat) :=
  map (fun j => (j, S j)) (seq first k).

(** The midpoint of two end points in the relation [R] is in that
    relation with both. *)
Definition midpoint_between (R : Q -> Q -> Prop) : Prop :=
  forall a b, R a b -> R a (midpoint_x a b) /\ R (midpoint_x a b) b.

(** [mesh_chain R m lo hi]: the cells of [m] are the chain over its
    vertices, which run from [lo] to [hi] with each vertex in the
    relation [R] to the next. *)
Definition mesh_chain (R : Q -> Q -> Prop) (m : Mesh) (lo hi : Q) : Prop :=
  exists q rest,
    coordinates m = q :: rest /\
    cells m = chain_cells 0 (length rest) /\
    Sorted R (q :: rest) /\
    q == lo /\ List.last rest q == hi.

(** The vertices after one pass: a vertex is inserted between two
    neighbours when their midpoint is strictly left of the point. *)
Fixpoint bisect (x : Q) (coords : list Q) : list Q :=
  match coords with
  | [] => []
  | a :: rest =>
      match rest with
      | [] => coords
      | b :: _ =>
          if Qlt_bool (midpoint_x a b) x
          then a :: midpoint_x a b :: bisect x rest
          else a :: bisect x rest
      end
  end.

(** [first_midpoint_le m B]: [m] has a first cell, its vertices are in
    order, and the midpoint of its first cell is at most [B]. *)
Definition first_midpoint_le (m : Mesh) (B : Q) : Prop :=
  exists a b more,
    coordinates m = a :: b :: more /\
    cells m = chain_cells 0 (S (length more)) /\
    Sorted Qle (a :: b :: more) /\
    midpoint_x a b <= B.

(** [refined_in_turn refinements m m']: starting from [m], the loop of
    each refinement in turn returns, with at least the cells it started
    from plus the cells it was asked for, and the last one returns [m']. *)
Inductive refined_in_turn : list Refinement -> Mesh -> Mesh -> Prop :=
| refined_none m : refined_in_turn [] m m
| refined_next r rest m m1 m' fuel :
    refine_while fuel (Z.of_nat (num_cells m) + r_cells r) (r_x r) m = Ret m1 ->
    (Z.of_nat (num_cells m) + r_cells r <= Z.of_nat (num_cells m1))%Z ->
    refined_in_turn rest m1 m' ->
    refined_in_turn (r :: rest) m m'.

(** The meshes on which the loop evaluates its condition. *)
Inductive visited (target : Z) (x : Q) (m0 : Mesh) : Mesh -> Prop :=
| visited_start : visited target x m0 m0
| visited_step m :
    visited target x m0 m ->
    (Z.of_nat (num_cells m) < target)%Z ->
    visited target x m0 (refine_step m x).

(** The mesh [IntervalMesh n 0 size] returns when it does not raise. *)
Definition uniform_mesh (n : Z) (size : Q) : Mesh :=
  {| coordinates :=
       map (fun i => 0 + inject_Z (Z.of_nat i) * (size - 0) / inject_Z n)
           (seq 0 (S (Z.to_nat n)));
     cells := map (fun i => (i, S i)) (seq 0 (Z.to_nat n)) |}.

(** The same configuration with the refinement point [1/100], inside
    the domain but left of the middle of the first cell. *)
Definition example_parameters_near_origin : MeshParameters :=
  {| p_mesh_file := None; p_mesh := None; p_vertices := None;
     p_initial_number_of_cells := Some 10%Z; p_size := Some 1;
     p_refinements := Some [ {| r_cells := 5; r_x := 1 # 100 |} ];
     p_cells_file := None; p_facets_file := None;
     p_meshfunction_cells := None; p_meshfunction_facets := None |}.

(** A configuration whose refinement point is the left end of the domain. *)
Definition example_parameters_at_origin : MeshParameters :=
  {| p_mesh_file := None; p_mesh := None; p_vertices := None;
     p_initial_number_of_cells := Some 10%Z; p_size := Some 1;
     p_refinements := Some [ {| r_cells := 1; r_x := 0 |} ];
     p_cells_file := None; p_facets_file := None;
     p_meshfunction_cells := None; p_meshfunction_facets := None |}.

(** The number of distinct values of a list of scalars. *)
Fixpoint count_distinct (l : list Q) : nat :=
  match l with
  | [] => O
  | x :: l' =>
      if existsb (Qeq_bool x) l' then count_distinct l'
      else S (count_distinct l')
  end.

(** Every upper bound equals the next lower bound. *)
Fixpoint adjacent_match (all_borders : list (num * num)) : Prop :=
  match all_borders with
  | b :: (b' :: _) as rest =>
      num_val (snd b) == num_val (fst b') /\ adjacent_match rest
  | _ => True
  end.

(** A file reader for the examples: no file can be read. *)
Definition no_file (mesh_file : string) : outcome Mesh :=
  Raise (RuntimeError "unable to open file").

(** [low <= x <= high] for the borders of a material. *)
Definition inside (material : Material) (x : Q) : bool :=
  Qle_bool (num_val (fst (m_borders material))) x
  && Qle_bool x (num_val (snd (m_borders material))).

(** The tag the material loop leaves on a cell with midpoint [x] that
    carried [old]: each material that applies overwrites the tag. *)
Definition tag_value (single : bool) (x : Q) (materials : list Material)
    (old : nat) : nat :=
  fold_left
    (fun v material =>
       if single then m_id material
       else if inside material x then m_id material else v)
    materials old.

(** The tag of a facet at [x]. *)
Definition facet_tag (size x : Q) : nat :=
  if near x size then 2%nat else if near x 0 then 1%nat else 0%nat.

(** A mesh of two cells over [[0, 2]]. *)
Definition two_cells : Mesh :=
  {| coordinates := [0; 1; 2]; cells := [(0, 1); (1, 2)]%nat |}.

(** A lone material, and two materials that leave [(1, 2)] uncovered. *)
Definition lone_material : Material := mkMaterial 5 (PyInt 0, PyInt 3).

Definition gapped_materials : list Material :=
  [ mkMaterial 7 (PyInt 0, PyInt 1); mkMaterial 9 (PyInt 2, PyInt 3) ].

(** Two materials that partition [[0, 3]]. *)
Definition two_materials : list Material :=
  [ mkMaterial 1 (PyInt 0, PyInt 1); mkMaterial 2 (PyInt 1, PyInt 3) ].

(** A vertex list, with a configured size that is not its maximum. *)
Definition vertices_parameters : MeshParameters :=
  mkMeshParameters None None (Some [0; 3; 1; 2]) None (Some 100)
                   None None None None None.

(** A mesh of three cells over [[0, 3]]. *)
Definition three_cells : Mesh :=
  {| coordinates := [0; 1; 2; 3];
     cells := [(0, 1); (1, 2); (2, 3)]%nat |}.

(** The same configuration with another value, or none, under ["size"]. *)
Definition with_size (p : MeshParameters) (size : option Q) : MeshParameters :=
  {| p_mesh_file := p_mesh_file p; p_mesh := p_mesh p;
     p_vertices := p_vertices p;
     p_initial_number_of_cells := p_initial_number_of_cells p;
     p_size := size;
     p_refinements := p_refinements p;
     p_cells_file := p_cells_file p; p_facets_file := p_facets_file p;
     p_meshfunction_cells := p_meshfunction_cells p;
     p_meshfunction_facets := p_meshfunction_facets p |}.

(** Nothing usable under ["meshfunction_cells"]. *)
Definition not_a_meshfunction (v : option MarkerValue) : Prop :=
  v = None \/ v = Some NotAMeshFunction.

(** Validation (for more than one material) and tagging with a given
    size, as [subdomains] chains them. *)
Definition validate_and_tag (mesh : Mesh) (materials : list Material)
    (size : Q) : outcome (MarkerValue * MarkerValue) :=
  let* _ := if (1 <? length materials)%nat
            then check_borders size materials else Ret true in
  Ret (IsMeshFunction (fst (subdomains_1D mesh materials size)),
       IsMeshFunction (snd (subdomains_1D mesh materials size))).

(** A marker reader for the examples: no file can be read. *)
Definition no_marker_file (mesh : Mesh) (cells_file facets_file : string)
    : outcome (MarkerValue * MarkerValue) :=
  Raise (RuntimeError "unable to open file").

(** [path_on coords a cs b]: the cells [cs] form a chain from vertex [a]
    to vertex [b]: each cell names two existing vertices, starts at the
    vertex where the previous one ended, and has positive length. *)
Fixpoint path_on (coords : list Q) (a : nat) (cs : list (nat * nat)) (b : nat)
    : Prop :=
  match cs with
  | [] => a = b
  | c :: rest =>
      fst c = a /\
      (fst c < length coords)%nat /\ (snd c < length coords)%nat /\
      nth (fst c) coords 0 < nth (snd c) coords 0 /\
      path_on coords (snd c) rest b
  end.

(** [interval_mesh_on m lo hi]: the cells of [m] are a chain from a
    vertex at [lo] to a vertex at [hi], and [m] has one vertex more than
    it has cells. *)
Definition interval_mesh_on (m : Mesh) (lo hi : Q) : Prop :=
  exists a b,
    (a < num_vertices m)%nat /\ (b < num_vertices m)%nat /\
    path_on (coordinates m) a (cells m) b /\
    coord m a == lo /\ coord m b == hi /\
    num_vertices m = S (num_cells m).
(** The widths [high - low] of the materials, added up. *)
Definition total_width (materials : list Material) : Q :=
  fold_right
    (fun material acc =>
       (num_val (snd (m_borders material)) - num_val (fst (m_borders material)))
       + acc)
    0 materials.

(** Three cells over [[0, 3]] and no refinement, as a configuration. *)
Definition three_cells_parameters : MeshParameters :=
  mkMeshParameters None None None (Some 3%Z) (Some 3) None None None None None.
(** ['Attribute should be named "f" in ' + file]. *)
Definition msg_attribute_f (file : string) : string :=
  ("Attribute should be named "
   ++ String (Ascii.ascii_of_nat 34)
        ("f" ++ String (Ascii.ascii_of_nat 34) (" in " ++ file)))%string.

(** [try: c  except: raise ValueError(msg)]: a bare [except] turns every
    exception into the given one. *)
Definition try_except_raise {A : Type} (c : outcome A) (msg : string)
    : outcome A :=
  match c with
  | Raise _ => Raise (ValueError msg)
  | other => other
  end.

(** Reading the attribute of a marker file is the library's business;
    the reader is a parameter. *)
Section XDMF.
Variable XDMFFile_read : string -> string -> outcome (list nat).

Definition read_subdomains_from_xdmf (mesh : Mesh)
    (volumetric_file boundary_file : string)
    : outcome (MarkerValue * MarkerValue) :=
  let* volume_markers :=
    try_except_raise (XDMFFile_read volumetric_file "f")
                     (msg_attribute_f volumetric_file) in
  let* surface_markers :=
    try_except_raise (XDMFFile_read boundary_file "f")
                     (msg_attribute_f boundary_file) in
  Ret (IsMeshFunction volume_markers, IsMeshFunction surface_markers).
End XDMF.

(** A marker file system for the examples: one readable file. *)
Definition one_marker_file (file attribute : string) : outcome (list nat) :=
  if String.eqb file "cells.xdmf" then Ret [1; 1; 2]%nat
  else Raise (RuntimeError "unable to read the attribute").
(** Marker values handed over ready-made, and a configuration with them. *)
Definition handed_over_parameters : MeshParameters :=
  mkMeshParameters None None None None None None None None
                   (Some (IsMeshFunction [3; 4]%nat)) (Some NotAMeshFunction).

(** Two materials whose borders leave a gap. *)
Definition unmatched_materials : list Material :=
  [ mkMaterial 1 (PyInt 0, PyInt 1); mkMaterial 2 (PyInt 2, PyInt 3) ].
(** A vertex list with its configuration: markers are computed. *)
Definition positive_vertices_parameters : MeshParameters :=
  mkMeshParameters None None (Some [3; 0; 1; 3]) None None
                   None None None None None.

(** * Properties *)

Lemma Qlt_bool_iff x y : Qlt_bool x y = true <-> x < y.
Proof.
  unfold Qlt_bool. rewrite negb_true_iff.
  destruct (Qle_bool y x) eqn:E.
  - apply Qle_bool_iff in E. split; [discriminate | intros H; lra].
  - split; [intros _ | reflexivity].
    destruct (Qlt_le_dec x y) as [H | H]; [exact H |].
    apply Qle_bool_iff in H. congruence.
Qed.

Lemma Qlt_bool_false x y : Qlt_bool x y = false <-> y <= x.
Proof.
  unfold Qlt_bool. rewrite negb_false_iff. apply Qle_bool_iff.
Qed.

(** Linear arithmetic on [Q] with halving written as a division. *)
Ltac lra_half := unfold Qdiv in *; change (/ 2) with (1 # 2) in *; lra.

(** ** Index loops *)

Section ForRange.
Context {A : Type}.
Implicit Types (body : nat -> list A -> list A) (h : nat -> A -> A).

Lemma for_range_S {B : Type} n (body : nat -> B -> B) a :
  for_range (S n) body a = body n (for_range n body a).
Proof.
  unfold for_range. rewrite seq_S, fold_left_app. reflexivity.
Qed.

Lemma for_range_alter n body h :
  (forall i a, body i a = alter (h i) i a) ->
  forall a j,
    for_range n body a !! j
    = if decide (j < n)%nat then h j <$> (a !! j) else a !! j.
Proof.
  intros Hbody a j. induction n as [| n IH].
  - simpl. destruct (decide (j < 0)%nat); [lia | reflexivity].
  - rewrite for_range_S, Hbody.
    destruct (decide (n = j)) as [-> | Hne].
    + rewrite list_lookup_alter_eq, IH.
      destruct (decide (j < j)%nat); [lia |].
      destruct (decide (j < S j)%nat); [reflexivity | lia].
    + rewrite list_lookup_alter_ne by exact Hne. rewrite IH.
      destruct (decide (j < n)%nat), (decide (j < S n)%nat);
        try reflexivity; lia.
Qed.

Lemma for_range_alter_length n body h :
  (forall i a, body i a = alter (h i) i a) ->
  forall a, length (for_range n body a) = length a.
Proof.
  intros Hbody a. induction n as [| n IH]; [reflexivity |].
  rewrite for_range_S, Hbody, length_alter. exact IH.
Qed.

(** A loop that visits every index of its array. *)
Lemma for_range_alter_all n body h a j :
  (forall i a, body i a = alter (h i) i a) ->
  length a = n ->
  for_range n body a !! j = h j <$> (a !! j).
Proof.
  intros Hbody Hlen. rewrite (for_range_alter n body h Hbody).
  destruct (decide (j < n)%nat) as [| Hge]; [reflexivity |].
  rewrite (lookup_ge_None_2 a j) by lia. reflexivity.
Qed.
End ForRange.

Lemma lookup_map {A B : Type} (f : A -> B) (l : list A) (i : nat) :
  map f l !! i = f <$> (l !! i).
Proof.
  revert i. induction l as [| x l IH]; intros [| i]; simpl; auto.
Qed.

Lemma lookup_seq_0 (n i : nat) : (i < n)%nat -> seq 0 n !! i = Some i.
Proof.
  intros H. rewrite lookup_seq_lt by exact H. reflexivity.
Qed.

(** ** The marking pass, as a map over the cells *)

Lemma mark_cells_map (m : Mesh) (x : Q) :
  mark_cells m x = map (fun c => Qlt_bool (midpoint m c) x) (cells m).
Proof.
  apply list_eq. intros j. unfold mark_cells.
  rewrite (for_range_alter_all _ _
             (fun i b => if Qlt_bool (cell_midpoint m i) x then true else b)).
  - rewrite lookup_map. unfold num_cells.
    destruct (cells m !! j) as [c |] eqn:E.
    + rewrite lookup_replicate_2 by (apply lookup_lt_Some in E; exact E).
      simpl. unfold cell_midpoint. rewrite (nth_lookup_Some _ _ _ _ E).
      destruct (Qlt_bool (midpoint m c) x); reflexivity.
    + apply lookup_ge_None_1 in E.
      rewrite (lookup_ge_None_2 (replicate _ _) j)
        by (rewrite length_replicate; exact E).
      reflexivity.
  - intros i a. destruct (Qlt_bool (cell_midpoint m i) x).
    + apply list_insert_alter.
    + symmetry. apply list_alter_id. reflexivity.
  - apply length_replicate.
Qed.

(** ** One refinement step *)

Lemma refine_cells_count (f : nat * nat -> bool) cs inserted :
  length (refine_cells inserted cs (map f cs))
  = (length cs + length (List.filter f cs))%nat.
Proof.
  revert inserted. induction cs as [| c cs IH]; intros inserted; [reflexivity |].
  simpl. destruct (f c); simpl; rewrite IH; lia.
Qed.

Lemma filter_existsb_true {A : Type} (f : A -> bool) l :
  existsb f l = true -> (1 <= length (List.filter f l))%nat.
Proof.
  induction l as [| a l IH]; [discriminate |]. simpl. intros H.
  destruct (f a); simpl; [lia |]. apply IH. exact H.
Qed.

Lemma filter_length_le {A : Type} (f : A -> bool) l :
  (length (List.filter f l) <= length l)%nat.
Proof.
  induction l as [| a l IH]; [reflexivity |]. simpl.
  destruct (f a); simpl; lia.
Qed.

Lemma refine_cells_unmarked (f : nat * nat -> bool) cs inserted :
  existsb f cs = false ->
  refine_cells inserted cs (map f cs)
  = map (fun c => (fst c + inserted, snd c + inserted)%nat) cs.
Proof.
  revert inserted. induction cs as [| c cs IH]; intros inserted H; [reflexivity |].
  simpl in *. apply orb_false_iff in H as [Hc Hcs].
  rewrite Hc, IH by exact Hcs. reflexivity.
Qed.

Lemma refine_vertices_unmarked m (f : nat * nat -> bool) coords cs :
  existsb f cs = false ->
  refine_vertices m coords cs (map f cs) = coords.
Proof.
  revert cs. induction coords as [| q coords IH]; intros cs H; [reflexivity |].
  destruct cs as [| c cs]; [reflexivity |].
  simpl in *. apply orb_false_iff in H as [Hc Hcs].
  rewrite Hc, IH by exact Hcs. reflexivity.
Qed.

Lemma refine_step_unmarked m x :
  existsb (marked m x) (cells m) = false -> refine_step m x = m.
Proof.
  intros H. unfold refine_step, refine. rewrite mark_cells_map.
  fold (marked m x).
  rewrite refine_vertices_unmarked, refine_cells_unmarked by exact H.
  rewrite (map_ext _ (fun c => c)), map_id;
    [destruct m; reflexivity |].
  intros [i j]. simpl. rewrite !Nat.add_0_r. reflexivity.
Qed.

Lemma refine_step_num_cells m x :
  num_cells (refine_step m x)
  = (num_cells m + length (List.filter (marked m x) (cells m)))%nat.
Proof.
  unfold refine_step, refine, num_cells. rewrite mark_cells_map.
  fold (marked m x). cbn [cells]. apply refine_cells_count.
Qed.

Lemma refine_step_monotone m x :
  (num_cells m <= num_cells (refine_step m x))%nat.
Proof.
  rewrite refine_step_num_cells. lia.
Qed.

Lemma refine_step_progress m x :
  existsb (marked m x) (cells m) = true ->
  (num_cells m < num_cells (refine_step m x))%nat.
Proof.
  intros H. rewrite refine_step_num_cells.
  pose proof (filter_existsb_true _ _ H). lia.
Qed.

(** ** A pass over a chain of cells *)

Lemma last_cons_self {A : Type} (q : A) (rest : list A) (d : A) :
  List.last (q :: rest) d = List.last rest q.
Proof.
  revert q d. induction rest as [| b rest IH]; intros q d; [reflexivity |].
  change (List.last (q :: b :: rest) d) with (List.last (b :: rest) d).
  rewrite IH. symmetry. apply IH.
Qed.

Lemma bisect_cons2 x a b rest :
  bisect x (a :: b :: rest)
  = if Qlt_bool (midpoint_x a b) x
    then a :: midpoint_x a b :: bisect x (b :: rest)
    else a :: bisect x (b :: rest).
Proof. reflexivity. Qed.

Lemma bisect_head x q rest :
  exists rest', bisect x (q :: rest) = q :: rest'.
Proof.
  destruct rest as [| b rest]; [exists []; reflexivity |].
  cbn [bisect]. destruct (Qlt_bool (midpoint_x q b) x); eexists; reflexivity.
Qed.

Lemma bisect_last x rest :
  forall q d, List.last (bisect x (q :: rest)) d = List.last (q :: rest) d.
Proof.
  induction rest as [| b rest IH]; intros q d; [reflexivity |].
  rewrite bisect_cons2.
  destruct (bisect_head x b rest) as [rest' E].
  specialize (IH b d). rewrite E in *.
  destruct (Qlt_bool (midpoint_x q b) x).
  - change (List.last (q :: midpoint_x q b :: b :: rest') d)
      with (List.last (b :: rest') d). exact IH.
  - change (List.last (q :: b :: rest') d) with (List.last (b :: rest') d).
    exact IH.
Qed.

Lemma bisect_sorted (R : Q -> Q -> Prop) x l :
  midpoint_between R -> Sorted R l -> Sorted R (bisect x l).
Proof.
  intros Hmid. induction l as [| a rest IH]; intros Hs; [constructor |].
  destruct rest as [| b rest]; [exact Hs |].
  apply Sorted_inv in Hs as [Hrest Hhd].
  apply HdRel_inv in Hhd. specialize (IH Hrest).
  destruct (Hmid a b Hhd) as [Ha Hb].
  destruct (bisect_head x b rest) as [rest' E].
  rewrite bisect_cons2. rewrite E in *.
  destruct (Qlt_bool (midpoint_x a b) x).
  - constructor; [constructor; [exact IH | constructor; exact Hb] |].
    constructor. exact Ha.
  - constructor; [exact IH | constructor; exact Hhd].
Qed.

Lemma chain_cells_S first k :
  chain_cells first (S k) = (first, S first) :: chain_cells (S first) k.
Proof. reflexivity. Qed.

Lemma chain_cells_length first k : length (chain_cells first k) = k.
Proof.
  unfold chain_cells. rewrite length_map, length_seq. reflexivity.
Qed.

Lemma refine_cells_chain (f : nat * nat -> bool) len :
  forall first inserted,
    refine_cells inserted (chain_cells first len) (map f (chain_cells first len))
    = chain_cells (first + inserted)
        (len + length (List.filter f (chain_cells first len))).
Proof.
  induction len as [| len IH]; intros first inserted; [reflexivity |].
  rewrite chain_cells_S. cbn [map refine_cells List.filter fst snd].
  destruct (f (first, S first)); cbn [length].
  - rewrite IH.
    replace (S len + S (length (List.filter f (chain_cells (S first) len))))%nat
      with (S (S (len + length (List.filter f (chain_cells (S first) len)))))
      by lia.
    rewrite !chain_cells_S.
    replace (S first + S inserted)%nat with (S (S (first + inserted))) by lia.
    replace (S (S first + inserted)) with (S (S (first + inserted))) by lia.
    reflexivity.
  - rewrite IH. cbn [Nat.add]. rewrite chain_cells_S.
    replace (S first + inserted)%nat with (S (first + inserted)) by lia.
    reflexivity.
Qed.

Lemma refine_vertices_marked m q coords c cs marks :
  refine_vertices m (q :: coords) (c :: cs) (true :: marks)
  = q :: midpoint m c :: refine_vertices m coords cs marks.
Proof. reflexivity. Qed.

Lemma refine_vertices_passed m q coords c cs marks :
  refine_vertices m (q :: coords) (c :: cs) (false :: marks)
  = q :: refine_vertices m coords cs marks.
Proof. reflexivity. Qed.

Lemma refine_vertices_bisect m x :
  forall rest q pre,
    coordinates m = (pre ++ q :: rest)%list ->
    refine_vertices m (q :: rest)
      (chain_cells (length pre) (length rest))
      (map (marked m x) (chain_cells (length pre) (length rest)))
    = bisect x (q :: rest) /\
    length (bisect x (q :: rest))
    = S (length rest
         + length (List.filter (marked m x)
                     (chain_cells (length pre) (length rest)))).
Proof.
  induction rest as [| b rest IH]; intros q pre Hc; [split; reflexivity |].
  cbn [length]. rewrite chain_cells_S.
  assert (Hmark : marked m x (length pre, S (length pre))
                  = Qlt_bool (midpoint_x q b) x).
  { unfold marked, midpoint, coord. cbn [fst snd]. rewrite Hc.
    rewrite app_nth2, Nat.sub_diag by lia. cbn [nth].
    rewrite app_nth2 by lia.
    replace (S (length pre) - length pre)%nat with 1%nat by lia.
    reflexivity. }
  destruct (IH b (pre ++ [q])%list) as [Hv Hl].
  { rewrite <- app_assoc. exact Hc. }
  rewrite length_app in Hv, Hl. cbn [length] in Hv, Hl.
  rewrite Nat.add_1_r in Hv, Hl.
  assert (Hmid : midpoint m (length pre, S (length pre)) = midpoint_x q b).
  { unfold midpoint, coord. cbn [fst snd]. rewrite Hc.
    rewrite app_nth2, Nat.sub_diag by lia. cbn [nth].
    rewrite app_nth2 by lia.
    replace (S (length pre) - length pre)%nat with 1%nat by lia.
    reflexivity. }
  cbn [map List.filter]. rewrite Hmark, bisect_cons2.
  destruct (Qlt_bool (midpoint_x q b) x);
    rewrite ?refine_vertices_marked, ?refine_vertices_passed;
    cbn [length]; rewrite ?Hmid, Hv, Hl; (split; [reflexivity | lia]).
Qed.

Lemma refine_step_chain m x q rest :
  coordinates m = q :: rest ->
  cells m = chain_cells 0 (length rest) ->
  coordinates (refine_step m x) = bisect x (q :: rest) /\
  cells (refine_step m x)
  = chain_cells 0 (length (bisect x (q :: rest)) - 1).
Proof.
  intros Hc Hcells.
  destruct (refine_vertices_bisect m x rest q [] Hc) as [Hv Hl].
  cbn [length] in Hv, Hl.
  unfold refine_step, refine. rewrite mark_cells_map. fold (marked m x).
  cbn [coordinates cells]. rewrite Hcells, Hc. split; [exact Hv |].
  rewrite refine_cells_chain, Hl. cbn [Nat.add Nat.sub].
  rewrite Nat.sub_0_r. reflexivity.
Qed.

Lemma mesh_chain_step (R : Q -> Q -> Prop) m x lo hi :
  midpoint_between R ->
  mesh_chain R m lo hi -> mesh_chain R (refine_step m x) lo hi.
Proof.
  intros Hmid (q & rest & Hc & Hcells & Hs & Hlo & Hhi).
  destruct (refine_step_chain m x q rest Hc Hcells) as [Hv Hcs].
  destruct (bisect_head x q rest) as [rest' E].
  exists q, rest'. rewrite Hv, Hcs, E.
  replace (length (q :: rest') - 1)%nat with (length rest') by (simpl; lia).
  split; [reflexivity |]. split; [reflexivity |].
  split; [rewrite <- E; apply bisect_sorted; assumption |].
  split; [exact Hlo |].
  rewrite <- (last_cons_self q rest' q), <- E, bisect_last, last_cons_self.
  exact Hhi.
Qed.

Lemma first_midpoint_marked m B x :
  first_midpoint_le m B -> B < x ->
  existsb (marked m x) (cells m) = true.
Proof.
  intros (a & b & more & Hc & Hcells & _ & Hle) Hx.
  rewrite Hcells, chain_cells_S. cbn [existsb]. apply orb_true_iff. left.
  apply Qlt_bool_iff. unfold midpoint, coord. rewrite Hc. cbn [fst snd nth].
  lra.
Qed.

Lemma first_midpoint_step m B x :
  midpoint_between Qle ->
  first_midpoint_le m B -> first_midpoint_le (refine_step m x) B.
Proof.
  intros Hmid (a & b & more & Hc & Hcells & Hs & Hle).
  destruct (refine_step_chain m x a (b :: more) Hc Hcells) as [Hv Hcs].
  pose proof (bisect_sorted Qle x _ Hmid Hs) as Hs'.
  assert (Hab : a <= b).
  { apply Sorted_inv in Hs as [_ Hhd]. apply HdRel_inv in Hhd. exact Hhd. }
  destruct (Hmid a b Hab) as [Ha Hb].
  destruct (bisect_head x b more) as [more' E].
  unfold first_midpoint_le. rewrite Hv, Hcs.
  rewrite bisect_cons2 in *. rewrite E in *.
  destruct (Qlt_bool (midpoint_x a b) x).
  - exists a, (midpoint_x a b), (b :: more').
    split; [reflexivity |].
    split; [f_equal; simpl; lia |]. split; [exact Hs' |].
    destruct (Hmid a (midpoint_x a b) Ha) as [_ H]. lra.
  - exists a, b, more'.
    split; [reflexivity |].
    split; [f_equal; simpl; lia |]. split; [exact Hs' |].
    exact Hle.
Qed.

(** ** The [while] loop *)

Lemma refine_while_fuel_mono fuel fuel' target x m m' :
  refine_while fuel target x m = Ret m' ->
  (fuel <= fuel')%nat ->
  refine_while fuel' target x m = Ret m'.
Proof.
  revert fuel' m. induction fuel as [| fuel IH]; intros fuel' m H Hle.
  - discriminate.
  - destruct fuel' as [| fuel']; [lia |]. simpl in *.
    destruct (Z.of_nat (num_cells m) <? target)%Z; [| exact H].
    apply IH; [exact H | lia].
Qed.

Lemma refine_while_terminates B x target :
  midpoint_between Qle ->
  B < x ->
  forall k m,
    first_midpoint_le m B ->
    (target - Z.of_nat (num_cells m) <= Z.of_nat k)%Z ->
    exists m',
      refine_while (S k) target x m = Ret m' /\
      (target <= Z.of_nat (num_cells m'))%Z /\
      (num_cells m <= num_cells m')%nat /\
      first_midpoint_le m' B.
Proof.
  intros Hmid Hx k. induction k as [| k IH]; intros m Ha Hk.
  - exists m. simpl.
    destruct (Z.ltb_spec (Z.of_nat (num_cells m)) target); [lia |].
    repeat split; auto; lia.
  - cbn [refine_while].
    destruct (Z.ltb_spec (Z.of_nat (num_cells m)) target) as [Hlt | Hge].
    + fold (refine_step m x).
      pose proof (refine_step_progress m x (first_midpoint_marked m B x Ha Hx))
        as Hp.
      destruct (IH (refine_step m x)) as (m' & Hr & Ht & Hm & Ha').
      * apply first_midpoint_step; assumption.
      * lia.
      * exists m'. repeat split; auto; lia.
    + exists m. repeat split; auto; lia.
Qed.

Lemma refine_while_stuck target x m :
  existsb (marked m x) (cells m) = false ->
  (Z.of_nat (num_cells m) < target)%Z ->
  forall fuel, refine_while fuel target x m = OutOfFuel.
Proof.
  intros Hun Hlt fuel. induction fuel as [| fuel IH]; [reflexivity |].
  simpl. destruct (Z.ltb_spec (Z.of_nat (num_cells m)) target); [| lia].
  fold (refine_step m x). rewrite refine_step_unmarked by exact Hun. exact IH.
Qed.

Lemma refine_while_visited target x m0 m m' fuel :
  refine_while fuel target x m0 = Ret m' ->
  visited target x m0 m ->
  exists fuel', refine_while fuel' target x m = Ret m'.
Proof.
  intros Hret Hv. induction Hv as [| m Hv IH Hlt].
  - exists fuel. exact Hret.
  - destruct IH as [[| fuel'] Hf]; [discriminate |].
    simpl in Hf.
    destruct (Z.ltb_spec (Z.of_nat (num_cells m)) target); [| lia].
    exists fuel'. exact Hf.
Qed.

(** ** The [for] loop over the refinements *)

Lemma refine_for_terminates B :
  midpoint_between Qle ->
  forall refinements m,
    first_midpoint_le m B ->
    Forall (fun r => B < r_x r) refinements ->
    exists fuel m',
      (forall fuel', (fuel <= fuel')%nat ->
         refine_for fuel' refinements (Z.of_nat (num_cells m)) m = Ret m') /\
      refined_in_turn refinements m m'.
Proof.
  intros Hmid. induction refinements as [| r rs IH]; intros m Ha Hall.
  - exists O, m. split; [reflexivity | constructor].
  - inversion Hall as [| ? ? Hx Hrs]; subst.
    destruct (refine_while_terminates B (r_x r)
                (Z.of_nat (num_cells m) + r_cells r) Hmid Hx
                (Z.to_nat (r_cells r)) m Ha) as (m1 & Hw & Ht & Hm & Ha1);
      [lia |].
    destruct (IH m1 Ha1 Hrs) as (fuel & m' & Hf & Hturn).
    exists (Nat.max (S (Z.to_nat (r_cells r))) fuel), m'. split.
    + intros fuel' Hle. cbn [refine_for].
      rewrite (refine_while_fuel_mono _ fuel' _ _ _ _ Hw) by lia.
      simpl. apply Hf. lia.
    + apply (refined_next r rs m m1 m' _ Hw Ht Hturn).
Qed.

(** ** The uniform mesh *)

Lemma nth_nonneg (l : list Q) (i : nat) :
  Forall (fun q => 0 <= q) l -> 0 <= nth i l 0.
Proof.
  intros H. revert i. induction H as [| q l Hq _ IH]; intros [| i]; simpl;
    auto; lra.
Qed.

Lemma inject_Z_of_nat_nonneg (i : nat) : 0 <= inject_Z (Z.of_nat i).
Proof.
  change 0 with (inject_Z 0). rewrite <- Zle_Qle. lia.
Qed.

Lemma inject_Z_pos (n : Z) : (0 < n)%Z -> 0 < inject_Z n.
Proof.
  intros H. change 0 with (inject_Z 0). rewrite <- Zlt_Qlt. exact H.
Qed.

Lemma IntervalMesh_positive n size :
  (0 < n)%Z -> 0 < size -> IntervalMesh n 0 size = Ret (uniform_mesh n size).
Proof.
  intros Hn Hs. unfold IntervalMesh.
  destruct (Z.leb_spec n 0); [lia |].
  destruct (Qle_bool size 0) eqn:E; [apply Qle_bool_iff in E; lra |].
  reflexivity.
Qed.

Lemma uniform_mesh_num_cells n size : num_cells (uniform_mesh n size) = Z.to_nat n.
Proof.
  unfold num_cells, uniform_mesh. simpl. rewrite length_map, length_seq.
  reflexivity.
Qed.

Lemma uniform_mesh_coord_nonneg n size i :
  (0 < n)%Z -> 0 < size -> 0 <= coord (uniform_mesh n size) i.
Proof.
  intros Hn Hs. apply nth_nonneg. unfold uniform_mesh. cbn [coordinates].
  apply List.Forall_forall. intros q Hq. apply in_map_iff in Hq as (k & <- & _).
  pose proof (inject_Z_of_nat_nonneg k) as Hk.
  pose proof (inject_Z_pos n Hn) as Hpos.
  assert (0 <= inject_Z (Z.of_nat k) * (size - 0) / inject_Z n).
  { apply Qle_shift_div_l; [exact Hpos |].
    rewrite Qmult_0_l. apply Qmult_le_0_compat; lra. }
  lra.
Qed.

Lemma sorted_map_seq (R : Q -> Q -> Prop) (f : nat -> Q) len :
  (forall i, R (f i) (f (S i))) ->
  forall first, Sorted R (map f (seq first len)).
Proof.
  intros Hstep. induction len as [| len IH]; intros first; [constructor |].
  cbn [seq map]. constructor; [apply IH |].
  destruct len; cbn [seq map]; constructor. apply Hstep.
Qed.

Lemma sorted_lt_le l : Sorted Qlt l -> Sorted Qle l.
Proof.
  induction 1 as [| a l Hs IH Hhd]; constructor; [exact IH |].
  destruct Hhd; constructor. lra.
Qed.

Lemma uniform_coord_step n size i :
  (0 < n)%Z -> 0 < size ->
  0 + inject_Z (Z.of_nat i) * (size - 0) / inject_Z n
  < 0 + inject_Z (Z.of_nat (S i)) * (size - 0) / inject_Z n.
Proof.
  intros Hn Hs. pose proof (inject_Z_pos n Hn) as Hq.
  rewrite Nat2Z.inj_succ. unfold Z.succ. rewrite inject_Z_plus.
  assert (Hstep : 0 < size / inject_Z n)
    by (apply Qlt_shift_div_l; [exact Hq | lra]).
  assert (E : 0 + (inject_Z (Z.of_nat i) + inject_Z 1) * (size - 0) / inject_Z n
              == 0 + inject_Z (Z.of_nat i) * (size - 0) / inject_Z n
                 + size / inject_Z n) by (field; lra).
  rewrite E. lra.
Qed.

Lemma last_map_seq (f : nat -> Q) len first d :
  List.last (map f (seq first (S len))) d = f (first + len)%nat.
Proof.
  revert first. induction len as [| len IH]; intros first.
  - simpl. rewrite Nat.add_0_r. reflexivity.
  - change (List.last (map f (seq first (S (S len)))) d)
      with (List.last (map f (seq (S first) (S len))) d).
    rewrite IH. f_equal. lia.
Qed.

Lemma uniform_mesh_chain n size :
  (0 < n)%Z -> 0 < size -> mesh_chain Qlt (uniform_mesh n size) 0 size.
Proof.
  intros Hn Hs. pose proof (inject_Z_pos n Hn) as Hq.
  unfold mesh_chain, uniform_mesh. cbn [coordinates cells].
  set (f := fun i => 0 + inject_Z (Z.of_nat i) * (size - 0) / inject_Z n).
  exists (f O), (map f (seq 1 (Z.to_nat n))).
  split; [reflexivity |].
  rewrite length_map, length_seq.
  split; [reflexivity |]. split.
  - apply (sorted_map_seq Qlt f (S (Z.to_nat n))
             (fun i => uniform_coord_step n size i Hn Hs) 0%nat).
  - destruct (Z.to_nat n) as [| k] eqn:E; [lia |]. split.
    + unfold f. change (inject_Z (Z.of_nat 0)) with 0. field. lra.
    + rewrite last_map_seq. replace (1 + k)%nat with (Z.to_nat n) by lia.
      unfold f. rewrite Z2Nat.id by lia. field. lra.
Qed.

Lemma mesh_chain_lt_le m lo hi : mesh_chain Qlt m lo hi -> mesh_chain Qle m lo hi.
Proof.
  intros (q & rest & Hc & Hcells & Hs & Hlo & Hhi).
  exists q, rest. repeat split; try assumption. apply sorted_lt_le. exact Hs.
Qed.

Lemma uniform_mesh_first_midpoint n size :
  (0 < n)%Z -> 0 < size ->
  first_midpoint_le (uniform_mesh n size) (cell_midpoint (uniform_mesh n size) 0).
Proof.
  intros Hn Hs.
  pose proof (sorted_lt_le _
                (sorted_map_seq Qlt _ (S (Z.to_nat n))
                   (fun i => uniform_coord_step n size i Hn Hs) 0%nat)) as Hsorted.
  unfold first_midpoint_le, cell_midpoint, midpoint, coord, uniform_mesh in *.
  cbn [coordinates cells].
  set (f := fun i => 0 + inject_Z (Z.of_nat i) * (size - 0) / inject_Z n) in *.
  destruct (Z.to_nat n) as [| k] eqn:E; [lia |].
  exists (f O), (f 1%nat), (map f (seq 2 k)).
  split; [reflexivity |].
  rewrite length_map, length_seq.
  split; [reflexivity |]. split; [exact Hsorted |].
  cbn [seq map nth fst snd]. lra.
Qed.

Lemma mesh_and_refine_positive fuel p n size :
  p_initial_number_of_cells p = Some n ->
  p_size p = Some size ->
  (0 < n)%Z -> 0 < size ->
  mesh_and_refine fuel p
  = match p_refinements p with
    | Some refinements => refine_for fuel refinements n (uniform_mesh n size)
    | None => Ret (uniform_mesh n size)
    end.
Proof.
  intros Hn Hs Hpos Hsize. unfold mesh_and_refine.
  rewrite Hn, Hs. cbn [getitem bind].
  rewrite IntervalMesh_positive by assumption. reflexivity.
Qed.

(** ** C1: the refinement loop reaches its target *)

(** C1, as amended.  Let the library's midpoint of two ordered end
    points lie between them.  For every generate-and-refine
    configuration with a positive cell count and size, each of whose
    refinement points lies strictly right of the midpoint the library
    computes for the first cell of the initial mesh, [mesh_and_refine]
    terminates, and the loop of each refinement in turn ends on a mesh
    with at least the cells it started from plus the cells it was asked
    for.  The count may pass the target, since a pass bisects every cell
    left of the point. *)
Theorem mesh_and_refine_reaches_target p n size refinements :
  midpoint_between Qle ->
  p_initial_number_of_cells p = Some n ->
  p_size p = Some size ->
  p_refinements p = Some refinements ->
  (0 < n)%Z -> 0 < size ->
  Forall (fun r => cell_midpoint (uniform_mesh n size) 0 < r_x r) refinements ->
  exists fuel m,
    mesh_and_refine fuel p = Ret m /\
    refined_in_turn refinements (uniform_mesh n size) m.
Proof.
  intros Hmid Hn Hs Hr Hpos Hsize Hall.
  destruct (refine_for_terminates (cell_midpoint (uniform_mesh n size) 0) Hmid
              refinements (uniform_mesh n size))
    as (fuel & m & Hf & Hturn).
  - apply uniform_mesh_first_midpoint; assumption.
  - exact Hall.
  - exists fuel, m. split; [| exact Hturn].
    rewrite (mesh_and_refine_positive fuel p n size) by assumption.
    rewrite Hr. specialize (Hf fuel (le_n _)).
    rewrite uniform_mesh_num_cells, Z2Nat.id in Hf by lia. exact Hf.
Qed.

(** ** C5: the uniform mesh *)

Lemma uniform_mesh_coord n size i :
  (i <= Z.to_nat n)%nat ->
  coord (uniform_mesh n size) i
  = 0 + inject_Z (Z.of_nat i) * (size - 0) / inject_Z n.
Proof.
  intros Hi. unfold coord, uniform_mesh. cbn [coordinates].
  apply nth_lookup_Some. rewrite lookup_map, lookup_seq_0 by lia. reflexivity.
Qed.

Lemma uniform_mesh_cell n size j :
  (j < Z.to_nat n)%nat -> cells (uniform_mesh n size) !! j = Some (j, S j).
Proof.
  intros Hj. unfold uniform_mesh. cbn [cells].
  rewrite lookup_map, lookup_seq_0 by lia. reflexivity.
Qed.

(** C5.  [mesh_and_refine] raises when [initial_number_of_cells] or
    [size] is missing (the dict lookup fails) or not positive (the
    interval mesh constructor fails), whatever the other fields are.
    When both are present and positive, the mesh it builds before any
    refinement has [n + 1] vertices, vertex [i] at [i * size / n] (so
    from [0] to [size]), and [n] cells, cell [j] joining vertices [j] and
    [j + 1] and of length [size / n]; without refinements that mesh is
    the result. *)
Theorem mesh_and_refine_uniform_mesh fuel p :
  (p_initial_number_of_cells p = None ->
   mesh_and_refine fuel p = Raise (KeyError "initial_number_of_cells")) /\
  (forall n, p_initial_number_of_cells p = Some n -> p_size p = None ->
   mesh_and_refine fuel p = Raise (KeyError "size")) /\
  (forall n size,
     p_initial_number_of_cells p = Some n -> p_size p = Some size ->
     (n <= 0)%Z \/ size <= 0 ->
     exists msg, mesh_and_refine fuel p = Raise (RuntimeError msg)) /\
  (forall n size,
     p_initial_number_of_cells p = Some n -> p_size p = Some size ->
     (0 < n)%Z -> 0 < size ->
     exists m,
       IntervalMesh n 0 size = Ret m /\
       mesh_and_refine fuel p
       = match p_refinements p with
         | Some refinements => refine_for fuel refinements n m
         | None => Ret m
         end /\
       num_vertices m = S (Z.to_nat n) /\
       num_cells m = Z.to_nat n /\
       coord m 0 == 0 /\
       coord m (Z.to_nat n) == size /\
       (forall i, (i <= Z.to_nat n)%nat ->
          coord m i == inject_Z (Z.of_nat i) * (size / inject_Z n)) /\
       (forall j, (j < Z.to_nat n)%nat ->
          cells m !! j = Some (j, S j) /\
          coord m (S j) - coord m j == size / inject_Z n)).
Proof.
  split; [| split; [| split]].
  - intros Hn. unfold mesh_and_refine. rewrite Hn. reflexivity.
  - intros n Hn Hs. unfold mesh_and_refine. rewrite Hn, Hs. reflexivity.
  - intros n size Hn Hs Hbad. unfold mesh_and_refine, IntervalMesh.
    rewrite Hn, Hs. cbn [getitem bind].
    destruct (Z.leb_spec n 0) as [Hle | Hgt]; [eexists; reflexivity |].
    destruct Hbad as [Hbad | Hbad]; [lia |].
    apply Qle_bool_iff in Hbad. rewrite Hbad. eexists; reflexivity.
  - intros n size Hn Hs Hpos Hsize.
    pose proof (inject_Z_pos n Hpos) as Hq.
    assert (Hi : forall i, (i <= Z.to_nat n)%nat ->
              coord (uniform_mesh n size) i
              == inject_Z (Z.of_nat i) * (size / inject_Z n)).
    { intros i Hle. rewrite uniform_mesh_coord by exact Hle. field. lra. }
    exists (uniform_mesh n size).
    split; [apply IntervalMesh_positive; assumption |].
    split; [apply mesh_and_refine_positive; assumption |].
    split; [unfold num_vertices, uniform_mesh; cbn [coordinates];
            rewrite length_map, length_seq; reflexivity |].
    split; [apply uniform_mesh_num_cells |].
    split; [rewrite Hi by lia; change (inject_Z (Z.of_nat 0)) with 0; lra |].
    split; [rewrite Hi by lia; rewrite Z2Nat.id by lia; field; lra |].
    split; [exact Hi |].
    intros j Hj. split; [apply uniform_mesh_cell; exact Hj |].
    rewrite !Hi by lia. rewrite Nat2Z.inj_succ. unfold Z.succ.
    rewrite inject_Z_plus. field. lra.
Qed.

(** ** C6: termination needs progress *)

(** C6.  If the [while] loop of a refinement terminates, then every mesh
    on which it evaluates its condition with the cell count still below
    the target has a cell whose midpoint is strictly left of the
    refinement point.  And, the library's midpoint of two ordered end
    points lying between them, for every positive cell count and size a
    refinement asking for at least one more cell at a point at or left of
    the origin marks no cell of the uniform mesh, leaves it unchanged,
    and [mesh_and_refine] does not terminate, whatever the fuel: nothing
    bounds the iterations or detects the lack of progress. *)
Theorem refine_while_needs_progress :
  (forall target x m0 fuel m',
     refine_while fuel target x m0 = Ret m' ->
     forall m, visited target x m0 m ->
       (Z.of_nat (num_cells m) < target)%Z ->
       exists c, In c (cells m) /\ midpoint m c < x) /\
  (forall p n size nb_cells_ref x,
     midpoint_between Qle ->
     p_initial_number_of_cells p = Some n ->
     p_size p = Some size ->
     p_refinements p = Some [ {| r_cells := nb_cells_ref; r_x := x |} ] ->
     (0 < n)%Z -> 0 < size -> (1 <= nb_cells_ref)%Z -> x <= 0 ->
     (forall c, In c (cells (uniform_mesh n size)) ->
                ~ midpoint (uniform_mesh n size) c < x) /\
     refine_step (uniform_mesh n size) x = uniform_mesh n size /\
     forall fuel, mesh_and_refine fuel p = OutOfFuel).
Proof.
  split.
  - intros target x m0 fuel m' Hret m Hv Hlt.
    destruct (existsb (marked m x) (cells m)) eqn:E.
    + apply existsb_exists in E as (c & Hin & Hc).
      exists c. split; [exact Hin | apply Qlt_bool_iff; exact Hc].
    + destruct (refine_while_visited _ _ _ _ _ _ Hret Hv) as [fuel' Hf].
      rewrite (refine_while_stuck target x m E Hlt) in Hf. discriminate.
  - intros p n size nb x Hbetween Hn Hs Hr Hpos Hsize Hnb Hx.
    assert (Hmid : forall c, In c (cells (uniform_mesh n size)) ->
                     ~ midpoint (uniform_mesh n size) c < x).
    { intros c Hin Hc. unfold uniform_mesh in Hin. cbn [cells] in Hin.
      apply in_map_iff in Hin as (i & <- & Hi). apply in_seq in Hi.
      unfold midpoint in Hc. cbn [fst snd] in Hc.
      pose proof (uniform_mesh_coord_nonneg n size i Hpos Hsize) as H0.
      assert (Hstep : coord (uniform_mesh n size) i
                      <= coord (uniform_mesh n size) (S i)).
      { rewrite !uniform_mesh_coord by lia.
        apply Qlt_le_weak, uniform_coord_step; assumption. }
      destruct (Hbetween _ _ Hstep) as [Hlow _]. lra. }
    assert (Hun : existsb (marked (uniform_mesh n size) x)
                          (cells (uniform_mesh n size)) = false).
    { destruct (existsb _ _) eqn:E; [| reflexivity].
      apply existsb_exists in E as (c & Hin & Hc).
      apply Qlt_bool_iff in Hc. destruct (Hmid c Hin Hc). }
    split; [exact Hmid |].
    split; [apply refine_step_unmarked; exact Hun |].
    intros fuel.
    rewrite (mesh_and_refine_positive fuel p n size) by assumption.
    rewrite Hr. cbn [refine_for r_cells r_x].
    rewrite refine_while_stuck; [reflexivity | exact Hun |].
    rewrite uniform_mesh_num_cells. lia.
Qed.

(** ** Sorting *)

Section SortedFacts.
Context {A : Type} (key : A -> Q).

Lemma insert_by_perm x l : Permutation (insert_by key x l) (x :: l).
Proof.
  induction l as [| y l IH]; simpl; [reflexivity |].
  destruct (Qle_bool (key x) (key y)); [reflexivity |].
  rewrite IH. apply perm_swap.
Qed.

Lemma sorted_by_perm l : Permutation (sorted_by key l) l.
Proof.
  induction l as [| x l IH]; simpl; [reflexivity |].
  rewrite insert_by_perm, IH. reflexivity.
Qed.

Lemma insert_by_sorted x l :
  StronglySorted (key_le key) l -> StronglySorted (key_le key) (insert_by key x l).
Proof.
  induction 1 as [| y l Hs IH Hy]; simpl.
  - repeat constructor.
  - destruct (Qle_bool (key x) (key y)) eqn:E.
    + apply Qle_bool_iff in E. constructor; [constructor; assumption |].
      constructor; [exact E |].
      eapply Forall_impl; [exact Hy |]. unfold key_le. intros z Hz. lra.
    + constructor; [exact IH |].
      apply (Permutation_Forall (Permutation_sym (insert_by_perm x l))).
      constructor; [| exact Hy].
      unfold key_le. destruct (Qlt_le_dec (key y) (key x)) as [H | H]; [lra |].
      apply Qle_bool_iff in H. congruence.
Qed.

Lemma sorted_by_sorted l : StronglySorted (key_le key) (sorted_by key l).
Proof.
  induction l as [| x l IH]; simpl; [constructor |].
  apply insert_by_sorted. exact IH.
Qed.

(** Sorting a sorted list leaves it as it is. *)
Lemma sorted_by_id l : StronglySorted (key_le key) l -> sorted_by key l = l.
Proof.
  induction 1 as [| x l Hs IH Hx]; [reflexivity |].
  simpl. rewrite IH. destruct Hx as [| y l Hxy _]; [reflexivity |].
  simpl. apply Qle_bool_iff in Hxy. rewrite Hxy. reflexivity.
Qed.
End SortedFacts.

(** ** Distinct values *)

Lemma existsb_Qeq_InA x l : existsb (Qeq_bool x) l = true <-> InA Qeq x l.
Proof.
  rewrite existsb_exists, InA_alt. split.
  - intros (y & Hin & Hy). exists y. split; [apply Qeq_bool_iff; exact Hy | exact Hin].
  - intros (y & Hy & Hin). exists y. split; [exact Hin | apply Qeq_bool_iff; exact Hy].
Qed.

(** Any duplicate-free list with the same values has that length. *)
Lemma count_distinct_length l :
  forall l', NoDupA Qeq l' -> equivlistA Qeq l' l -> length l' = count_distinct l.
Proof.
  induction l as [| x l IH]; intros l' Hnd Heq.
  - apply equivlistA_nil_eq in Heq; [| typeclasses eauto]. subst. reflexivity.
  - simpl. destruct (existsb (Qeq_bool x) l) eqn:E.
    + apply existsb_Qeq_InA in E. apply IH; [exact Hnd |].
      intros z. rewrite (Heq z). split.
      * intros Hz. inversion Hz as [? ? Hzx | ? ? Hzl]; subst; [| exact Hzl].
        rewrite Hzx. exact E.
      * intros Hz. apply InA_cons_tl. exact Hz.
    + assert (Hx : ~ InA Qeq x l).
      { intros H. apply existsb_Qeq_InA in H. congruence. }
      assert (Hin : InA Qeq x l') by (apply Heq; apply InA_cons_hd; reflexivity).
      apply InA_split in Hin as (h & y & t & Hxy & ->).
      apply NoDupA_swap in Hnd; [| typeclasses eauto].
      inversion Hnd as [| ? ? Hy Hnd']; subst.
      rewrite length_app. simpl. rewrite Nat.add_succ_r, <- length_app.
      f_equal. apply IH; [exact Hnd' |].
      intros z. split.
      * intros Hz.
        assert (Hz' : InA Qeq z (x :: l)).
        { apply Heq. apply InA_app_iff. apply InA_app_iff in Hz as [Hz | Hz];
            [left; exact Hz | right; apply InA_cons_tl; exact Hz]. }
        inversion Hz' as [? ? Hzx | ? ? Hzl]; subst; [| exact Hzl].
        exfalso. apply Hy. rewrite <- Hxy, <- Hzx. exact Hz.
      * intros Hz.
        assert (Hz' : InA Qeq z (h ++ y :: t))
          by (apply Heq; apply InA_cons_tl; exact Hz).
        apply InA_app_iff. apply InA_app_iff in Hz' as [Hz' | Hz'];
          [left; exact Hz' |].
        inversion Hz' as [? ? Hzy | ? ? Hzt]; subst; [| right; exact Hzt].
        exfalso. apply Hx. rewrite Hxy, <- Hzy. exact Hz.
Qed.

(** ** [np.unique] *)

Lemma drop_repeats_of_sorted p l :
  StronglySorted Qle (p :: l) ->
  StronglySorted Qlt (p :: drop_repeats_of p l).
Proof.
  revert p. induction l as [| y l IH]; intros p Hs.
  - repeat constructor.
  - simpl. apply StronglySorted_inv in Hs as [Hyl Hp].
    inversion Hp as [| ? ? Hpy Hpl]; subst.
    apply StronglySorted_inv in Hyl as Hyl'. destruct Hyl' as [Hl Hy].
    destruct (Qeq_bool p y) eqn:E.
    + apply IH. constructor; assumption.
    + apply Qeq_bool_neq in E.
      specialize (IH y Hyl). apply StronglySorted_inv in IH as IH'.
      destruct IH' as [_ Hlt].
      assert (Hlt' : p < y) by (apply Qle_lteq in Hpy as [H | H]; [exact H | contradiction]).
      constructor; [exact IH |].
      constructor; [exact Hlt' |].
      eapply Forall_impl; [exact Hlt |]. intros z Hz. simpl in Hz. lra.
Qed.

Lemma drop_repeats_of_values p l x :
  InA Qeq x (p :: drop_repeats_of p l) <-> InA Qeq x (p :: l).
Proof.
  revert p. induction l as [| y l IH]; intros p; [reflexivity |].
  simpl. destruct (Qeq_bool p y) eqn:E.
  - apply Qeq_bool_iff in E. rewrite IH. rewrite !InA_cons. rewrite E.
    split; [intros [H | H]; auto | intros [H | [H | H]]; auto].
  - rewrite !InA_cons. rewrite <- !InA_cons. rewrite (InA_cons Qeq x p (y :: _)).
    rewrite (InA_cons Qeq x p (y :: l)). rewrite IH. reflexivity.
Qed.

Lemma strictly_sorted_NoDupA l : StronglySorted Qlt l -> NoDupA Qeq l.
Proof.
  induction 1 as [| x l Hs IH Hx]; constructor; [| exact IH].
  intros Hin. apply InA_alt in Hin as (y & Hxy & Hy).
  rewrite List.Forall_forall in Hx. specialize (Hx y Hy). lra.
Qed.

Lemma strictly_sorted_le l : StronglySorted Qlt l -> StronglySorted Qle l.
Proof.
  induction 1 as [| x l Hs IH Hx]; constructor; [exact IH |].
  eapply Forall_impl; [exact Hx |]. intros y Hy. simpl in Hy. lra.
Qed.

Lemma np_unique_sorted l : StronglySorted Qlt (np_unique l).
Proof.
  unfold np_unique, drop_repeats, sorted.
  pose proof (sorted_by_sorted (fun x => x) l) as Hs.
  destruct (sorted_by (fun x => x) l) as [| p s]; [constructor |].
  apply drop_repeats_of_sorted. exact Hs.
Qed.

Lemma np_unique_values l x : InA Qeq x (np_unique l) <-> InA Qeq x l.
Proof.
  unfold np_unique, drop_repeats, sorted.
  pose proof (sorted_by_perm (fun x => x) l) as Hp.
  assert (H : InA Qeq x (sorted_by (fun x => x) l) <-> InA Qeq x l).
  { rewrite !InA_alt. split; intros (y & Hxy & Hy); exists y; split; auto.
    - apply (Permutation_in _ Hp). exact Hy.
    - apply (Permutation_in _ (Permutation_sym Hp)). exact Hy. }
  rewrite <- H. destruct (sorted_by (fun x => x) l) as [| p s]; [reflexivity |].
  apply drop_repeats_of_values.
Qed.

Lemma np_unique_length l : length (np_unique l) = count_distinct l.
Proof.
  apply count_distinct_length.
  - apply strictly_sorted_NoDupA, np_unique_sorted.
  - intros x. apply np_unique_values.
Qed.

Lemma sorted_np_unique l : sorted (np_unique l) = np_unique l.
Proof.
  apply (sorted_by_id (fun x => x)), strictly_sorted_le, np_unique_sorted.
Qed.

(** ** C3: the mesh built from explicit vertices *)

Lemma count_distinct_pos l : l <> [] -> (1 <= count_distinct l)%nat.
Proof.
  intros Hne. rewrite <- np_unique_length.
  destruct l as [| x l]; [contradiction |].
  destruct (np_unique (x :: l)) as [| y s] eqn:E; [| simpl; lia].
  assert (H : InA Qeq x (np_unique (x :: l)))
    by (apply np_unique_values; apply InA_cons_hd; reflexivity).
  rewrite E in H. inversion H.
Qed.

Lemma fill_by_index {A : Type} (f : nat -> A) (d : A) (n : nat) :
  for_range n (fun i a => <[i := f i]> a) (replicate n d) = map f (seq 0 n).
Proof.
  apply list_eq. intros j.
  rewrite (for_range_alter_all n _ (fun i _ => f i)).
  - rewrite lookup_map.
    destruct (decide (j < n)%nat) as [Hlt | Hge].
    + rewrite lookup_replicate_2, lookup_seq_0 by exact Hlt. reflexivity.
    + rewrite (lookup_ge_None_2 (replicate n d)) by (rewrite length_replicate; lia).
      rewrite lookup_seq_ge by lia. reflexivity.
  - intros i a. apply list_insert_alter.
  - apply length_replicate.
Qed.

Lemma map_nth_seq (l : list Q) : map (fun i => nth i l 0) (seq 0 (length l)) = l.
Proof.
  apply list_eq. intros j. rewrite lookup_map.
  destruct (l !! j) as [x |] eqn:E.
  - rewrite lookup_seq_0 by (apply lookup_lt_Some in E; exact E).
    simpl. rewrite (nth_lookup_Some _ _ _ _ E). reflexivity.
  - rewrite lookup_seq_ge by (apply lookup_ge_None_1 in E; exact E).
    reflexivity.
Qed.

Lemma generate_mesh_from_vertices_eq vertices :
  vertices <> [] ->
  generate_mesh_from_vertices vertices
  = Ret {| coordinates := np_unique vertices;
           cells := map (fun j => (j, S j))
                        (seq 0 (count_distinct vertices - 1)) |}.
Proof.
  intros Hne. unfold generate_mesh_from_vertices.
  rewrite sorted_np_unique.
  pose proof (count_distinct_pos vertices Hne) as Hpos.
  rewrite <- np_unique_length in *.
  destruct (length (np_unique vertices)) as [| nb_cells] eqn:E; [lia |].
  rewrite !fill_by_index. rewrite <- E, map_nth_seq, E.
  simpl. rewrite Nat.sub_0_r. reflexivity.
Qed.

(** C3.  For every non-empty sequence of vertex scalars, in any order
    and with any duplicates, with [N] distinct values, the mesh built
    from it has exactly [N] vertices, in strictly increasing order and
    with the values of the input, and exactly [N - 1] cells, cell [j]
    joining vertex [j] and vertex [j + 1]; with a single distinct value
    the mesh has no cell. *)
Theorem generate_mesh_from_vertices_spec vertices :
  vertices <> [] ->
  exists m,
    generate_mesh_from_vertices vertices = Ret m /\
    num_vertices m = count_distinct vertices /\
    StronglySorted Qlt (coordinates m) /\
    (forall x, InA Qeq x (coordinates m) <-> InA Qeq x vertices) /\
    num_cells m = (count_distinct vertices - 1)%nat /\
    (forall j, (j < count_distinct vertices - 1)%nat ->
               cells m !! j = Some (j, S j)) /\
    (count_distinct vertices = 1%nat -> cells m = []).
Proof.
  intros Hne. eexists. split; [apply generate_mesh_from_vertices_eq; exact Hne |].
  unfold num_vertices, num_cells. cbn [coordinates cells].
  split; [apply np_unique_length |].
  split; [apply np_unique_sorted |].
  split; [intros x; apply np_unique_values |].
  split; [rewrite length_map, length_seq; reflexivity |].
  split.
  - intros j Hj. rewrite lookup_map, lookup_seq_0 by exact Hj. reflexivity.
  - intros ->. reflexivity.
Qed.

(** ** C2: border validation *)

Lemma num_neq_false a b : num_neq a b = false <-> a == b.
Proof.
  unfold num_neq. rewrite negb_false_iff. apply Qeq_bool_iff.
Qed.

Lemma num_neq_true a b : num_neq a b = true <-> ~ a == b.
Proof.
  unfold num_neq. rewrite negb_true_iff. split.
  - apply Qeq_bool_neq.
  - intros H. destruct (Qeq_bool a b) eqn:E; [| reflexivity].
    apply Qeq_bool_iff in E. contradiction.
Qed.

Lemma check_adjacent_outcome all_borders :
  (adjacent_match all_borders /\ check_adjacent all_borders = Ret tt) \/
  (~ adjacent_match all_borders /\
   check_adjacent all_borders = Raise (ValueError msg_match_each_other)).
Proof.
  induction all_borders as [| b rest IH]; [left; split; [exact I | reflexivity] |].
  destruct rest as [| b' rest]; [left; split; [exact I | reflexivity] |].
  cbn [check_adjacent adjacent_match].
  destruct (num_neq (num_val (snd b)) (num_val (fst b'))) eqn:E.
  - right. apply num_neq_true in E.
    split; [intros [H _]; exact (E H) | reflexivity].
  - apply num_neq_false in E. destruct IH as [[Hm Hc] | [Hm Hc]].
    + left. split; [split; assumption | exact Hc].
    + right. split; [intros [_ H]; exact (Hm H) | exact Hc].
Qed.

(** What [check_borders] does, check by check, on the borders sorted by
    lower bound: the first check is the identity test [is not 0]. *)
Lemma check_borders_outcome size materials first rest :
  sorted_by (fun b => num_val (fst b)) (map m_borders materials) = first :: rest ->
  (is_int_zero (fst first) = false ->
   check_borders size materials = Raise (ValueError msg_begin_at_zero)) /\
  (is_int_zero (fst first) = true -> ~ adjacent_match (first :: rest) ->
   check_borders size materials = Raise (ValueError msg_match_each_other)) /\
  (is_int_zero (fst first) = true -> adjacent_match (first :: rest) ->
   ~ num_val (snd (List.last (first :: rest) first)) == size ->
   check_borders size materials = Raise (ValueError msg_match_size)) /\
  (is_int_zero (fst first) = true -> adjacent_match (first :: rest) ->
   num_val (snd (List.last (first :: rest) first)) == size ->
   check_borders size materials = Ret true).
Proof.
  intros Hs. unfold check_borders. rewrite Hs.
  destruct (check_adjacent_outcome (first :: rest)) as [[Hm Hc] | [Hm Hc]];
    rewrite Hc; cbn [bind]; repeat split; intros Hz; rewrite Hz; cbn [negb];
    try reflexivity; try (intros; contradiction).
  - intros _ Hl. apply num_neq_true in Hl. rewrite Hl. reflexivity.
  - intros _ Hl. apply num_neq_false in Hl. rewrite Hl. reflexivity.
Qed.

(** C2, the defect.  Two materials with borders [[0.0, 1.0]] and
    [[1.0, 2.0]] on a domain of size [2.0] begin at zero, match each
    other and end at the size, yet [check_borders] raises "Borders don't
    begin at zero": the first check is an identity test against the
    integer [0], which a float zero fails.  The same borders written with
    integers pass, and borders [[0, 1]], [[1.5, 2]] raise "Borders don't
    match to each other". *)
Theorem check_borders_rejects_float_zero :
  check_borders 2 [ mkMaterial 1 (PyFloat 0, PyFloat 1);
                    mkMaterial 2 (PyFloat 1, PyFloat 2) ]
  = Raise (ValueError msg_begin_at_zero) /\
  check_borders 2 [ mkMaterial 1 (PyInt 0, PyInt 1);
                    mkMaterial 2 (PyInt 1, PyInt 2) ]
  = Ret true /\
  check_borders 2 [ mkMaterial 1 (PyInt 0, PyInt 1);
                    mkMaterial 2 (PyFloat (3 # 2), PyInt 2) ]
  = Raise (ValueError msg_match_each_other).
Proof.
  repeat split; vm_compute; reflexivity.
Qed.

(** ** C4: the choice of the mesh source *)

Section FileProperties.
Variable XDMFFile_read_mesh : string -> outcome Mesh.
Variable read_subdomains_from_xdmf :
  Mesh -> string -> string -> outcome (MarkerValue * MarkerValue).

(** C4.  [create_mesh] takes the first source present, in the order:
    mesh file, ready-made mesh object of the mesh type, vertex list,
    generate-and-refine; the result is that of the chosen source
    whatever the fields of lower precedence hold.  With none of the
    first three present and [initial_number_of_cells] or [size]
    missing, it raises instead of returning a mesh. *)
Theorem create_mesh_precedence fuel p :
  (forall mesh_file,
     p_mesh_file p = Some mesh_file ->
     create_mesh XDMFFile_read_mesh fuel p = XDMFFile_read_mesh mesh_file) /\
  (forall mesh,
     p_mesh_file p = None -> p_mesh p = Some (IsMesh mesh) ->
     create_mesh XDMFFile_read_mesh fuel p = Ret mesh) /\
  (forall vertices,
     p_mesh_file p = None -> not_a_mesh (p_mesh p) ->
     p_vertices p = Some vertices ->
     create_mesh XDMFFile_read_mesh fuel p
     = generate_mesh_from_vertices vertices) /\
  (p_mesh_file p = None -> not_a_mesh (p_mesh p) -> p_vertices p = None ->
   create_mesh XDMFFile_read_mesh fuel p = mesh_and_refine fuel p) /\
  (p_mesh_file p = None -> not_a_mesh (p_mesh p) -> p_vertices p = None ->
   p_initial_number_of_cells p = None \/ p_size p = None ->
   exists key, create_mesh XDMFFile_read_mesh fuel p = Raise (KeyError key)).
Proof.
  unfold create_mesh, not_a_mesh. split; [| split; [| split; [| split]]].
  - intros f ->. reflexivity.
  - intros mesh -> ->. reflexivity.
  - intros vs -> [-> | ->] ->; reflexivity.
  - intros -> [-> | ->] ->; reflexivity.
  - intros -> Hm -> Hmissing.
    assert (E : exists key, mesh_and_refine fuel p = Raise (KeyError key)).
    { unfold mesh_and_refine.
      destruct (p_initial_number_of_cells p) as [n |];
        [| eexists; reflexivity].
      destruct Hmissing as [H | ->]; [discriminate | eexists; reflexivity]. }
    destruct Hm as [-> | ->]; exact E.
Qed.
End FileProperties.

(** ** The tagging loops, entry by entry *)

Lemma material_loop_alter (single : bool) (x : Q) (cell : nat) materials :
  forall volume_markers : list nat,
    fold_left
      (fun volume_markers material =>
         if single then <[cell := m_id material]> volume_markers
         else if inside material x then <[cell := m_id material]> volume_markers
         else volume_markers)
      materials volume_markers
    = alter (tag_value single x materials) cell volume_markers.
Proof.
  induction materials as [| material rest IH]; intros vm.
  - symmetry. apply list_alter_id. reflexivity.
  - cbn [fold_left]. rewrite IH.
    assert (E : (if single then <[cell := m_id material]> vm
                 else if inside material x then <[cell := m_id material]> vm
                 else vm)
                = alter (fun v => if single then m_id material
                                  else if inside material x then m_id material
                                  else v) cell vm).
    { destruct single; [apply list_insert_alter |].
      destruct (inside material x); [apply list_insert_alter |].
      symmetry. apply list_alter_id. reflexivity. }
    rewrite E, list_alter_alter_eq. reflexivity.
Qed.

Lemma tag_cells_lookup mesh materials (volume_markers : list nat) cell :
  tag_cells mesh materials volume_markers !! cell
  = if decide (cell < num_cells mesh)%nat
    then tag_value (length materials =? 1)%nat (cell_midpoint mesh cell) materials
           <$> (volume_markers !! cell)
    else volume_markers !! cell.
Proof.
  unfold tag_cells.
  apply (for_range_alter (num_cells mesh) _
           (fun cell => tag_value (length materials =? 1)%nat
                                  (cell_midpoint mesh cell) materials)).
  intros i a. apply material_loop_alter.
Qed.

Lemma facet_body_alter size x f (surface_markers : list nat) :
  (let surface_markers := <[f := 0%nat]> surface_markers in
   let surface_markers :=
     if near x 0 then <[f := 1%nat]> surface_markers else surface_markers in
   if near x size then <[f := 2%nat]> surface_markers else surface_markers)
  = alter (fun _ => facet_tag size x) f surface_markers.
Proof.
  unfold facet_tag. cbv zeta.
  destruct (near x 0), (near x size);
    rewrite ?list_insert_insert_eq; apply list_insert_alter.
Qed.

Lemma tag_facets_lookup mesh size (surface_markers : list nat) f :
  tag_facets mesh size surface_markers !! f
  = if decide (f < num_vertices mesh)%nat
    then (fun _ => facet_tag size (coord mesh f)) <$> (surface_markers !! f)
    else surface_markers !! f.
Proof.
  unfold tag_facets.
  apply (for_range_alter (num_vertices mesh) _
           (fun f _ => facet_tag size (coord mesh f))).
  intros i a. apply facet_body_alter.
Qed.

Lemma tag_cells_length mesh materials (volume_markers : list nat) :
  length (tag_cells mesh materials volume_markers) = length volume_markers.
Proof.
  unfold tag_cells.
  apply (for_range_alter_length (num_cells mesh) _
           (fun cell => tag_value (length materials =? 1)%nat
                                  (cell_midpoint mesh cell) materials)).
  intros i a. apply material_loop_alter.
Qed.

Lemma tag_facets_length mesh size (surface_markers : list nat) :
  length (tag_facets mesh size surface_markers) = length surface_markers.
Proof.
  unfold tag_facets.
  apply (for_range_alter_length (num_vertices mesh) _
           (fun f _ => facet_tag size (coord mesh f))).
  intros i a. apply facet_body_alter.
Qed.

Lemma subdomains_1D_cell mesh materials size cell :
  (cell < num_cells mesh)%nat ->
  fst (subdomains_1D mesh materials size) !! cell
  = Some (tag_value (length materials =? 1)%nat (cell_midpoint mesh cell)
                    materials 0%nat).
Proof.
  intros H. unfold subdomains_1D. cbn [fst].
  rewrite tag_cells_lookup. destruct (decide _); [| contradiction].
  rewrite lookup_replicate_2 by exact H. reflexivity.
Qed.

Lemma subdomains_1D_facet mesh materials size f :
  (f < num_vertices mesh)%nat ->
  snd (subdomains_1D mesh materials size) !! f
  = Some (facet_tag size (coord mesh f)).
Proof.
  intros H. unfold subdomains_1D. cbn [snd].
  rewrite tag_facets_lookup. destruct (decide _); [| contradiction].
  rewrite lookup_replicate_2 by exact H. reflexivity.
Qed.

Lemma subdomains_1D_lengths mesh materials size :
  length (fst (subdomains_1D mesh materials size)) = num_cells mesh /\
  length (snd (subdomains_1D mesh materials size)) = num_vertices mesh.
Proof.
  unfold subdomains_1D. cbn [fst snd].
  rewrite tag_cells_length, tag_facets_length, !length_replicate. auto.
Qed.

(** The material loop either finds no material that applies and keeps
    the old tag, or ends on the id of a material that applies, whatever
    the old tag was. *)
Lemma tag_value_cases single x materials :
  ((forall material, In material materials ->
      single = false /\ inside material x = false) /\
   forall old, tag_value single x materials old = old) \/
  (exists material,
      In material materials /\
      (single = true \/ inside material x = true) /\
      forall old, tag_value single x materials old = m_id material).
Proof.
  unfold tag_value.
  induction materials as [| material rest IH].
  - left. split; [intros ? [] | reflexivity].
  - cbn [fold_left]. destruct IH as [[Hnone Hold] | (mat & Hin & Hap & Hval)].
    + destruct single.
      * right. exists material. split; [left; reflexivity |].
        split; [left; reflexivity |]. intros old. apply Hold.
      * destruct (inside material x) eqn:E.
        -- right. exists material. split; [left; reflexivity |].
           split; [right; exact E |]. intros old. apply Hold.
        -- left. split; [| intros old; apply Hold].
           intros mat' [<- | Hin]; [split; [reflexivity | exact E] |].
           apply Hnone. exact Hin.
    + right. exists mat. split; [right; exact Hin |].
      split; [exact Hap |]. intros old. apply Hval.
Qed.

Lemma inside_iff material x :
  inside material x = true
  <-> num_val (fst (m_borders material)) <= x
      /\ x <= num_val (snd (m_borders material)).
Proof.
  unfold inside. rewrite andb_true_iff, !Qle_bool_iff. reflexivity.
Qed.

(** ** C7: a single material *)

(** C7, as amended.  With exactly one material, every cell is tagged
    with that material's id, whatever its borders; every facet within
    the tolerance of [size] is tagged 2, every facet within the
    tolerance of [0] and not of [size] is tagged 1, and every other
    facet is tagged 0. *)
Theorem subdomains_1D_single_material mesh material size :
  length (fst (subdomains_1D mesh [material] size)) = num_cells mesh /\
  length (snd (subdomains_1D mesh [material] size)) = num_vertices mesh /\
  (forall cell, (cell < num_cells mesh)%nat ->
     fst (subdomains_1D mesh [material] size) !! cell = Some (m_id material)) /\
  (forall f, (f < num_vertices mesh)%nat ->
     (near (coord mesh f) size = true ->
      snd (subdomains_1D mesh [material] size) !! f = Some 2%nat) /\
     (near (coord mesh f) 0 = true -> near (coord mesh f) size = false ->
      snd (subdomains_1D mesh [material] size) !! f = Some 1%nat) /\
     (near (coord mesh f) 0 = false -> near (coord mesh f) size = false ->
      snd (subdomains_1D mesh [material] size) !! f = Some 0%nat)).
Proof.
  destruct (subdomains_1D_lengths mesh [material] size) as [Hc Hf].
  split; [exact Hc |]. split; [exact Hf |]. split.
  - intros cell H. rewrite subdomains_1D_cell by exact H. reflexivity.
  - intros f H. rewrite subdomains_1D_facet by exact H. unfold facet_tag.
    split; [| split].
    + intros ->. reflexivity.
    + intros -> ->. reflexivity.
    + intros -> ->. reflexivity.
Qed.

(** ** C8: several materials *)

(** C8.  With a materials list that is not a single material, the cell
    tag array has one entry per cell; a cell whose midpoint lies in the
    closed border interval of some material carries the id of a material
    whose interval contains the midpoint, and a cell whose midpoint lies
    in no interval carries 0.  The pass is a total function: it returns
    for every mesh and every materials list. *)
Theorem subdomains_1D_multiple_materials mesh materials size cell :
  length materials <> 1%nat ->
  (cell < num_cells mesh)%nat ->
  length (fst (subdomains_1D mesh materials size)) = num_cells mesh /\
  ((exists material,
      In material materials /\
      num_val (fst (m_borders material)) <= cell_midpoint mesh cell /\
      cell_midpoint mesh cell <= num_val (snd (m_borders material))) ->
   exists material,
      In material materials /\
      num_val (fst (m_borders material)) <= cell_midpoint mesh cell /\
      cell_midpoint mesh cell <= num_val (snd (m_borders material)) /\
      fst (subdomains_1D mesh materials size) !! cell = Some (m_id material)) /\
  ((forall material,
      In material materials ->
      ~ (num_val (fst (m_borders material)) <= cell_midpoint mesh cell /\
         cell_midpoint mesh cell <= num_val (snd (m_borders material)))) ->
   fst (subdomains_1D mesh materials size) !! cell = Some 0%nat).
Proof.
  intros Hlen Hcell.
  split; [apply subdomains_1D_lengths |].
  rewrite subdomains_1D_cell by exact Hcell.
  apply Nat.eqb_neq in Hlen. rewrite Hlen.
  destruct (tag_value_cases false (cell_midpoint mesh cell) materials)
    as [[Hnone Hold] | (mat & Hin & Hap & Hval)].
  - split.
    + intros (material & Hin & Hins). exfalso.
      destruct (Hnone material Hin) as [_ E].
      apply inside_iff in Hins. congruence.
    + intros _. rewrite Hold. reflexivity.
  - destruct Hap as [Hap | Hap]; [discriminate |].
    apply inside_iff in Hap as [Hlo Hhi]. split.
    + intros _. exists mat. rewrite Hval. auto.
    + intros Hnone. exfalso. apply (Hnone mat Hin). auto.
Qed.

(** ** C10: the size used for validation and tagging *)

Lemma py_max_spec x l :
  exists size,
    py_max (x :: l) = Ret size /\ In size (x :: l) /\
    forall v, In v (x :: l) -> v <= size.
Proof.
  unfold py_max. eexists. split; [reflexivity |].
  revert x. induction l as [| y l IH]; intros x.
  - simpl. split; [left; reflexivity |]. intros v [<- | []]. lra.
  - cbn [fold_left]. destruct (Qlt_bool x y) eqn:E.
    + apply Qlt_bool_iff in E. destruct (IH y) as [Hin Hmax].
      split; [right; exact Hin |].
      intros v [<- | Hv]; [| apply Hmax; exact Hv].
      specialize (Hmax y (or_introl eq_refl)). lra.
    + apply Qlt_bool_false in E. destruct (IH x) as [Hin Hmax].
      split; [destruct Hin as [<- | Hin]; [left; reflexivity | right; right; exact Hin] |].
      intros v [<- | [<- | Hv]].
      * apply Hmax. left. reflexivity.
      * specialize (Hmax x (or_introl eq_refl)). lra.
      * apply Hmax. right. exact Hv.
Qed.

Section SizeProperties.
Variable read_subdomains_from_xdmf :
  Mesh -> string -> string -> outcome (MarkerValue * MarkerValue).

(** C10.  When the markers are neither read from files nor handed
    over, and the configuration has a non-empty vertex list, the size
    given to border validation and to tagging is the largest vertex,
    and the result is the same whatever is stored under ["size"],
    present or not.  Without a vertex list the configured size is
    used, and its absence raises. *)
Theorem subdomains_size_from_vertices mesh mesh_parameters materials :
  p_cells_file mesh_parameters = None ->
  not_a_meshfunction (p_meshfunction_cells mesh_parameters) ->
  (forall vertices,
     p_vertices mesh_parameters = Some vertices -> vertices <> [] ->
     exists size,
       py_max vertices = Ret size /\
       In size vertices /\
       (forall v, In v vertices -> v <= size) /\
       subdomains read_subdomains_from_xdmf mesh
         (mkParameters mesh_parameters materials)
       = validate_and_tag mesh materials size /\
       forall configured,
         subdomains read_subdomains_from_xdmf mesh
           (mkParameters (with_size mesh_parameters configured) materials)
         = validate_and_tag mesh materials size) /\
  (p_vertices mesh_parameters = None ->
   (forall size,
      p_size mesh_parameters = Some size ->
      subdomains read_subdomains_from_xdmf mesh
        (mkParameters mesh_parameters materials)
      = validate_and_tag mesh materials size) /\
   (p_size mesh_parameters = None ->
    subdomains read_subdomains_from_xdmf mesh
      (mkParameters mesh_parameters materials)
    = Raise (KeyError "size"))).
Proof.
  intros Hcf Hmf.
  assert (Hsub : forall p,
            p_cells_file p = None ->
            not_a_meshfunction (p_meshfunction_cells p) ->
            subdomains read_subdomains_from_xdmf mesh (mkParameters p materials)
            = let* size := match p_vertices p with
                           | Some vertices => py_max vertices
                           | None => getitem "size" (p_size p)
                           end in
              validate_and_tag mesh materials size).
  { intros p Hc Hm. unfold subdomains, validate_and_tag.
    cbn [params_mesh_parameters params_materials]. rewrite Hc.
    destruct Hm as [-> | ->]; reflexivity. }
  split.
  - intros vertices Hv Hne.
    destruct vertices as [| x l]; [contradiction |].
    destruct (py_max_spec x l) as (size & Hmax & Hin & Hub).
    exists size. split; [exact Hmax |]. split; [exact Hin |].
    split; [exact Hub |]. split.
    + rewrite Hsub by assumption. rewrite Hv, Hmax. reflexivity.
    + intros configured. rewrite Hsub by assumption.
      cbn [with_size p_vertices]. rewrite Hv, Hmax. reflexivity.
  - intros Hv. split.
    + intros size Hs. rewrite Hsub by assumption. rewrite Hv, Hs. reflexivity.
    + intros Hs. rewrite Hsub by assumption. rewrite Hv, Hs. reflexivity.
Qed.
End SizeProperties.

(** * Further properties of the code *)

(** ** The refinement loop: what holds whenever it returns *)

Lemma refine_step_at_most_doubles m x :
  (num_cells (refine_step m x) <= 2 * num_cells m)%nat.
Proof.
  rewrite refine_step_num_cells.
  pose proof (filter_length_le (marked m x) (cells m)). unfold num_cells. lia.
Qed.

(** X1.  Whenever the [while] loop of a refinement returns, whatever the
    refinement point, the cell count has reached the target and is not
    below the count the loop started from. *)
Theorem refine_while_returns_at_target fuel target x m m' :
  refine_while fuel target x m = Ret m' ->
  (target <= Z.of_nat (num_cells m'))%Z /\
  (num_cells m <= num_cells m')%nat.
Proof.
  revert m. induction fuel as [| fuel IH]; intros m H; [discriminate |].
  simpl in H.
  destruct (Z.ltb_spec (Z.of_nat (num_cells m)) target) as [Hlt | Hge].
  - fold (refine_step m x) in H. destruct (IH _ H) as [Ht Hm].
    pose proof (refine_step_monotone m x). split; [exact Ht | lia].
  - injection H as <-. split; [exact Hge | lia].
Qed.

(** X2.  The loop overshoots its target by less than a factor of two: a pass
    at most doubles the cell count and only runs below the target, so
    the count on return is at most the larger of the starting count and
    [2 * (target - 1)]. *)
Theorem refine_while_overshoot_bound fuel target x m m' :
  refine_while fuel target x m = Ret m' ->
  (Z.of_nat (num_cells m')
   <= Z.max (Z.of_nat (num_cells m)) (2 * (target - 1)))%Z.
Proof.
  revert m. induction fuel as [| fuel IH]; intros m H; [discriminate |].
  simpl in H.
  destruct (Z.ltb_spec (Z.of_nat (num_cells m)) target) as [Hlt | Hge].
  - fold (refine_step m x) in H. specialize (IH _ H).
    pose proof (refine_step_at_most_doubles m x). lia.
  - injection H as <-. lia.
Qed.

(** ** Refinements that ask for nothing *)

Lemma refine_for_nothing_requested fuel refinements m :
  Forall (fun r => (r_cells r <= 0)%Z) refinements ->
  refine_for (S fuel) refinements (Z.of_nat (num_cells m)) m = Ret m.
Proof.
  induction 1 as [| r rs Hr _ IH]; [reflexivity |].
  cbn [refine_for refine_while].
  destruct (Z.ltb_spec (Z.of_nat (num_cells m))
                       (Z.of_nat (num_cells m) + r_cells r)); [lia |].
  cbn [bind]. exact IH.
Qed.

(** X4.  When no refinement asks for a positive number of cells, no pass
    runs: [mesh_and_refine] returns the uniform mesh, wherever the
    refinement points are (the loop condition is evaluated once per
    refinement, hence one unit of fuel). *)
Theorem mesh_and_refine_nothing_requested fuel p n size refinements :
  p_initial_number_of_cells p = Some n ->
  p_size p = Some size ->
  p_refinements p = Some refinements ->
  (0 < n)%Z -> 0 < size ->
  Forall (fun r => (r_cells r <= 0)%Z) refinements ->
  mesh_and_refine (S fuel) p = IntervalMesh n 0 size.
Proof.
  intros Hn Hs Hr Hpos Hsize Hall.
  rewrite (mesh_and_refine_positive (S fuel) p n size) by assumption.
  rewrite Hr, IntervalMesh_positive by assumption.
  pose proof (refine_for_nothing_requested fuel refinements
                (uniform_mesh n size) Hall) as H.
  rewrite uniform_mesh_num_cells, Z2Nat.id in H by lia. exact H.
Qed.

(** ** Refinement keeps the mesh a chain of cells over the domain *)

Lemma path_on_bounds coords cs a b :
  path_on coords a cs b ->
  nth a coords 0 <= nth b coords 0 /\
  forall c, In c cs ->
    nth a coords 0 <= nth (fst c) coords 0 /\
    nth (fst c) coords 0 < nth (snd c) coords 0 /\
    nth (snd c) coords 0 <= nth b coords 0.
Proof.
  revert a. induction cs as [| c cs IH]; intros a H.
  - simpl in H. subst. split; [lra | intros c []].
  - destruct H as (Ha & _ & _ & Hlt & Hrest).
    destruct (IH _ Hrest) as [Hab Hcs]. subst a.
    split; [lra |]. intros c' [<- | Hin].
    + repeat split; lra.
    + destruct (Hcs c' Hin) as (H1 & H2 & H3). repeat split; lra.
Qed.

Lemma path_on_consecutive coords cs a b k c c' :
  path_on coords a cs b ->
  cs !! k = Some c -> cs !! S k = Some c' -> snd c = fst c'.
Proof.
  revert a k. induction cs as [| c0 cs IH]; intros a k H Hk Hk'; [discriminate |].
  destruct H as (_ & _ & _ & _ & Hrest).
  destruct k as [| k].
  - injection Hk as <-. destruct cs as [| c1 cs]; [discriminate |].
    injection Hk' as <-. destruct Hrest as (H & _). symmetry. exact H.
  - apply (IH _ k Hrest); assumption.
Qed.

Lemma strictly_sorted_nth l i j :
  StronglySorted Qlt l -> (i < j)%nat -> (j < length l)%nat ->
  nth i l 0 < nth j l 0.
Proof.
  intros Hs. revert i j. induction Hs as [| x l Hs IH Hx]; intros i j Hij Hj.
  - simpl in Hj. lia.
  - destruct j as [| j]; [lia |]. simpl in Hj.
    destruct i as [| i].
    + simpl. rewrite List.Forall_forall in Hx. apply Hx. apply nth_In. lia.
    + simpl. apply IH; lia.
Qed.

Lemma sorted_le_nth l i j :
  Sorted Qle l -> (i <= j)%nat -> (j < length l)%nat ->
  nth i l 0 <= nth j l 0.
Proof.
  intros Hs. apply Sorted_StronglySorted in Hs;
    [| intros a b c Hab Hbc; lra].
  revert i j. induction Hs as [| x l Hs IH Hx]; intros i j Hij Hj.
  - simpl in Hj. lia.
  - destruct j as [| j]; [replace i with O by lia; simpl; lra |].
    simpl in Hj. destruct i as [| i].
    + simpl. rewrite List.Forall_forall in Hx. apply Hx. apply nth_In. lia.
    + simpl. apply IH; lia.
Qed.

Lemma nth_last_cons (q : Q) rest : nth (length rest) (q :: rest) 0 = List.last rest q.
Proof.
  revert q. induction rest as [| b rest IH]; intros q; [reflexivity |].
  change (nth (length rest) (b :: rest) 0 = List.last (b :: rest) q).
  rewrite (IH b). symmetry. apply last_cons_self.
Qed.

Lemma path_on_seq coords k len :
  (forall j, (S j < length coords)%nat -> nth j coords 0 < nth (S j) coords 0) ->
  (k + len < length coords)%nat ->
  path_on coords k (map (fun i => (i, S i)) (seq k len)) (k + len).
Proof.
  intros Hstep. revert k. induction len as [| len IH]; intros k Hk.
  - simpl. lia.
  - cbn [seq map path_on fst snd]. repeat split; try lia.
    + apply Hstep. lia.
    + replace (k + S len)%nat with (S k + len)%nat by lia. apply IH. lia.
Qed.

Lemma mesh_chain_interval m lo hi :
  mesh_chain Qlt m lo hi -> interval_mesh_on m lo hi.
Proof.
  intros (q & rest & Hc & Hcells & Hs & Hlo & Hhi).
  exists O, (length rest).
  unfold num_vertices, num_cells, coord. rewrite Hc, Hcells.
  rewrite chain_cells_length. cbn [length nth].
  split; [lia |]. split; [lia |]. split.
  - apply (path_on_seq (q :: rest) 0 (length rest)); [| simpl; lia].
    intros j Hj. apply strictly_sorted_nth; [| lia | exact Hj].
    apply Sorted_StronglySorted; [intros a b c Hab Hbc; lra | exact Hs].
  - split; [exact Hlo |]. split; [| reflexivity].
    rewrite <- Hhi. rewrite <- nth_last_cons. reflexivity.
Qed.

(** The end points of a cell of a chain lie in order within the chain. *)
Lemma mesh_chain_cell m lo hi c :
  mesh_chain Qle m lo hi -> In c (cells m) ->
  lo <= coord m (fst c) /\
  coord m (fst c) <= coord m (snd c) /\
  coord m (snd c) <= hi.
Proof.
  intros (q & rest & Hc & Hcells & Hs & Hlo & Hhi) Hin.
  rewrite Hcells in Hin. unfold chain_cells in Hin.
  apply in_map_iff in Hin as (j & <- & Hj). apply in_seq in Hj.
  unfold coord. rewrite Hc. cbn [fst snd].
  rewrite <- Hlo, <- Hhi, <- nth_last_cons.
  change q with (nth 0 (q :: rest) 0) at 1.
  repeat split; apply sorted_le_nth; try exact Hs; simpl; lia.
Qed.

Lemma refine_while_chain (R : Q -> Q -> Prop) fuel target x m m' lo hi :
  midpoint_between R ->
  refine_while fuel target x m = Ret m' ->
  mesh_chain R m lo hi -> mesh_chain R m' lo hi.
Proof.
  intros Hmid. revert m. induction fuel as [| fuel IH]; intros m H Hm;
    [discriminate |].
  simpl in H. destruct (Z.of_nat (num_cells m) <? target)%Z.
  - apply (IH _ H). apply mesh_chain_step; assumption.
  - injection H as <-. exact Hm.
Qed.

Lemma refine_for_chain (R : Q -> Q -> Prop) fuel refinements initial m m' lo hi :
  midpoint_between R ->
  refine_for fuel refinements initial m = Ret m' ->
  mesh_chain R m lo hi -> mesh_chain R m' lo hi.
Proof.
  intros Hmid. revert initial m.
  induction refinements as [| r rs IH]; intros initial m H Hm.
  - injection H as <-. exact Hm.
  - cbn [refine_for] in H.
    destruct (refine_while fuel (initial + r_cells r) (r_x r) m) as [m1 | |] eqn:E;
      try discriminate.
    cbn [bind] in H. apply (IH _ _ H).
    apply (refine_while_chain R _ _ _ _ _ _ _ Hmid E Hm).
Qed.

Lemma mesh_and_refine_chain (R : Q -> Q -> Prop) fuel p n size m :
  midpoint_between R ->
  mesh_chain R (uniform_mesh n size) 0 size ->
  p_initial_number_of_cells p = Some n ->
  p_size p = Some size ->
  (0 < n)%Z -> 0 < size ->
  mesh_and_refine fuel p = Ret m ->
  mesh_chain R m 0 size.
Proof.
  intros Hmid Hu Hn Hs Hpos Hsize Hret.
  rewrite (mesh_and_refine_positive fuel p n size) in Hret by assumption.
  destruct (p_refinements p) as [refinements |].
  - apply (refine_for_chain R _ _ _ _ _ _ _ Hmid Hret Hu).
  - injection Hret as <-. exact Hu.
Qed.

Lemma path_on_indices coords cs a b c :
  path_on coords a cs b -> In c cs ->
  (fst c < length coords)%nat /\ (snd c < length coords)%nat.
Proof.
  revert a. induction cs as [| c0 cs IH]; intros a Hpath Hin; [destruct Hin |].
  destruct Hpath as (_ & Hi & Hj & _ & Hrest).
  destruct Hin as [<- | Hin]; [split; assumption |].
  apply (IH _ Hrest Hin).
Qed.

Lemma interval_mesh_cell m lo hi c :
  interval_mesh_on m lo hi -> In c (cells m) ->
  (fst c < num_vertices m)%nat /\ (snd c < num_vertices m)%nat /\
  lo <= coord m (fst c) /\ coord m (fst c) < coord m (snd c) /\
  coord m (snd c) <= hi.
Proof.
  intros (a & b & _ & _ & Hpath & Hlo & Hhi & _) Hin.
  destruct (path_on_bounds _ _ _ _ Hpath) as [_ Hc].
  destruct (Hc c Hin) as (H1 & H2 & H3).
  destruct (path_on_indices _ _ _ _ _ Hpath Hin) as [Hi Hj].
  unfold coord, num_vertices in *. repeat split; try assumption; lra.
Qed.

Lemma mesh_and_refine_interval_on fuel p n size m :
  midpoint_between Qlt ->
  p_initial_number_of_cells p = Some n ->
  p_size p = Some size ->
  (0 < n)%Z -> 0 < size ->
  mesh_and_refine fuel p = Ret m ->
  interval_mesh_on m 0 size.
Proof.
  intros Hmid Hn Hs Hpos Hsize Hret.
  apply mesh_chain_interval.
  apply (mesh_and_refine_chain Qlt fuel p n size m Hmid); try assumption.
  apply uniform_mesh_chain; assumption.
Qed.

(** X5.  Let the library's midpoint of two end points lie strictly
    between them.  Every mesh [mesh_and_refine] returns, with or without refinements
    and wherever the refinement points are, is a chain of cells from a
    vertex at [0] to a vertex at [size]: it has one vertex more than
    cells, consecutive cells share a vertex, and every cell names
    existing vertices, has positive length and lies within [[0, size]]. *)
Theorem mesh_and_refine_interval_mesh fuel p n size m :
  midpoint_between Qlt ->
  p_initial_number_of_cells p = Some n ->
  p_size p = Some size ->
  (0 < n)%Z -> 0 < size ->
  mesh_and_refine fuel p = Ret m ->
  interval_mesh_on m 0 size /\
  num_vertices m = S (num_cells m) /\
  (forall c, In c (cells m) ->
     (fst c < num_vertices m)%nat /\ (snd c < num_vertices m)%nat /\
     0 <= coord m (fst c) /\ coord m (fst c) < coord m (snd c) /\
     coord m (snd c) <= size) /\
  (forall k c c', cells m !! k = Some c -> cells m !! S k = Some c' ->
     snd c = fst c').
Proof.
  intros Hmid Hn Hs Hpos Hsize Hret.
  pose proof (mesh_and_refine_interval_on fuel p n size m Hmid Hn Hs Hpos Hsize
                Hret) as Hm.
  split; [exact Hm |].
  split; [destruct Hm as (a & b & _ & _ & _ & _ & _ & Hnv); exact Hnv |].
  split; [intros c Hin; apply (interval_mesh_cell m 0 size c Hm Hin) |].
  destruct Hm as (a & b & _ & _ & Hpath & _).
  intros k c c'. apply (path_on_consecutive _ _ _ _ _ _ _ Hpath).
Qed.

(** ** A refinement point at or beyond the right end refines globally *)

Lemma interval_mesh_all_marked m size x :
  midpoint_between Qlt ->
  interval_mesh_on m 0 size -> size <= x ->
  forall c, In c (cells m) -> marked m x c = true.
Proof.
  intros Hmid (a & b & _ & _ & Hpath & Hlo & Hhi & _) Hx c Hin.
  destruct (path_on_bounds _ _ _ _ Hpath) as [_ Hc].
  destruct (Hc c Hin) as (H1 & H2 & H3).
  apply Qlt_bool_iff. unfold midpoint, coord in *.
  destruct (Hmid _ _ H2) as [_ Hm]. lra.
Qed.

Lemma filter_all {A : Type} (f : A -> bool) l :
  (forall a, In a l -> f a = true) -> List.filter f l = l.
Proof.
  induction l as [| a l IH]; intros H; [reflexivity |]. simpl.
  rewrite (H a (or_introl eq_refl)). f_equal. apply IH.
  intros a' Ha'. apply H. right. exact Ha'.
Qed.

Lemma refine_step_doubles m size x :
  midpoint_between Qlt ->
  interval_mesh_on m 0 size -> size <= x ->
  num_cells (refine_step m x) = (2 * num_cells m)%nat.
Proof.
  intros Hmid Hm Hx. rewrite refine_step_num_cells.
  rewrite (filter_all _ _ (interval_mesh_all_marked m size x Hmid Hm Hx)).
  unfold num_cells. lia.
Qed.

Lemma refine_while_S fuel target x m :
  refine_while (S fuel) target x m
  = if (Z.of_nat (num_cells m) <? target)%Z
    then refine_while fuel target x (refine_step m x)
    else Ret m.
Proof. reflexivity. Qed.

Lemma refine_while_doubles size x target :
  midpoint_between Qlt ->
  size <= x ->
  forall d m,
    mesh_chain Qlt m 0 size ->
    (0 < num_cells m)%nat ->
    (target - Z.of_nat (num_cells m) <= Z.of_nat d)%Z ->
    exists k m',
      refine_while (S d) target x m = Ret m' /\
      num_cells m' = (num_cells m * 2 ^ k)%nat /\
      (target <= Z.of_nat (num_cells m * 2 ^ k))%Z /\
      (k = O \/ (Z.of_nat (num_cells m * 2 ^ (k - 1)) < target)%Z).
Proof.
  intros Hmid Hx d. induction d as [| d IH]; intros m Hm Hpos Hd.
  - exists O, m. rewrite refine_while_S.
    destruct (Z.ltb_spec (Z.of_nat (num_cells m)) target); [lia |].
    rewrite Nat.pow_0_r, Nat.mul_1_r. repeat split; auto.
  - rewrite refine_while_S.
    destruct (Z.ltb_spec (Z.of_nat (num_cells m)) target) as [Hlt | Hge].
    + pose proof (refine_step_doubles m size x Hmid
                    (mesh_chain_interval m 0 size Hm) Hx) as Hdouble.
      destruct (IH (refine_step m x)) as (k & m' & Hr & Hc & Ht & Hmin).
      * apply mesh_chain_step; assumption.
      * lia.
      * lia.
      * exists (S k), m'. rewrite Hdouble in *.
        assert (E : (num_cells m * 2 ^ S k = 2 * num_cells m * 2 ^ k)%nat)
          by (rewrite Nat.pow_succ_r'; lia).
        rewrite E. split; [exact Hr |]. split; [exact Hc |].
        split; [exact Ht |]. right.
        replace (S k - 1)%nat with k by lia.
        destruct Hmin as [-> | Hmin].
        -- rewrite Nat.pow_0_r, Nat.mul_1_r. exact Hlt.
        -- destruct k as [| k]; [rewrite Nat.pow_0_r, Nat.mul_1_r; exact Hlt |].
           replace (S k - 1)%nat with k in Hmin by lia.
           rewrite Nat.pow_succ_r'.
           replace (num_cells m * (2 * 2 ^ k))%nat
             with (2 * num_cells m * 2 ^ k)%nat by lia.
           exact Hmin.
    + exists O, m. rewrite Nat.pow_0_r, Nat.mul_1_r. repeat split; auto.
Qed.

(** X6.  Let the library's midpoint of two end points lie strictly
    between them.  With a single refinement whose point is at or right of
    the right end of the domain, every pass bisects every cell: [mesh_and_refine]
    terminates with [n * 2 ^ k] cells, where [k] is the least number of
    doublings that reaches the target [n + cells]. *)
Theorem mesh_and_refine_beyond_domain p n size nb_cells_ref x :
  midpoint_between Qlt ->
  p_initial_number_of_cells p = Some n ->
  p_size p = Some size ->
  p_refinements p = Some [ {| r_cells := nb_cells_ref; r_x := x |} ] ->
  (0 < n)%Z -> 0 < size -> size <= x ->
  exists k fuel m,
    mesh_and_refine fuel p = Ret m /\
    num_cells m = (Z.to_nat n * 2 ^ k)%nat /\
    (n + nb_cells_ref <= Z.of_nat (Z.to_nat n * 2 ^ k))%Z /\
    (k = O \/ (Z.of_nat (Z.to_nat n * 2 ^ (k - 1)) < n + nb_cells_ref)%Z).
Proof.
  intros Hmid Hn Hs Hr Hpos Hsize Hx.
  destruct (refine_while_doubles size x (n + nb_cells_ref) Hmid Hx
              (Z.to_nat nb_cells_ref) (uniform_mesh n size))
    as (k & m & Hw & Hc & Ht & Hmin).
  - apply uniform_mesh_chain; assumption.
  - rewrite uniform_mesh_num_cells. lia.
  - rewrite uniform_mesh_num_cells. lia.
  - rewrite uniform_mesh_num_cells in *.
    exists k, (S (Z.to_nat nb_cells_ref)), m.
    rewrite (mesh_and_refine_positive _ p n size) by assumption.
    rewrite Hr. cbn [refine_for r_cells r_x]. rewrite Hw. cbn [bind].
    repeat split; assumption.
Qed.

(** ** A refinement point on a vertex *)

Lemma sorted_head_le_nth l a k :
  Sorted Qlt (a :: l) -> (k < length (a :: l))%nat -> a <= nth k (a :: l) 0.
Proof.
  intros Hs Hk. destruct k as [| k]; [simpl; lra |].
  apply Qlt_le_weak.
  apply (strictly_sorted_nth (a :: l) 0 (S k)); [| lia | exact Hk].
  apply Sorted_StronglySorted; [intros u v w Huv Hvw; lra | exact Hs].
Qed.

Lemma bisect_right_of_point x l a :
  midpoint_between Qlt -> Sorted Qlt (a :: l) -> x <= a ->
  bisect x (a :: l) = a :: l.
Proof.
  intros Hmid. revert a. induction l as [| b rest IH]; intros a Hs Hx;
    [reflexivity |].
  apply Sorted_inv in Hs as [Hrest Hhd]. apply HdRel_inv in Hhd.
  destruct (Hmid a b Hhd) as [Ha _].
  rewrite bisect_cons2.
  destruct (Qlt_bool (midpoint_x a b) x) eqn:E;
    [apply Qlt_bool_iff in E; lra |].
  rewrite IH by (try assumption; lra). reflexivity.
Qed.

(** Where the point is the vertex at position [k], a pass bisects the
    [k] cells left of it and no other; the point is then the vertex at
    position [2 * k]. *)
Lemma bisect_at_vertex x :
  midpoint_between Qlt ->
  forall l k,
    Sorted Qlt l -> (k < length l)%nat -> nth k l 0 == x ->
    length (bisect x l) = (length l + k)%nat /\
    nth (2 * k) (bisect x l) 0 == x.
Proof.
  intros Hmid. induction l as [| a rest IH]; intros k Hs Hk Hx;
    [simpl in Hk; lia |].
  destruct rest as [| b rest].
  - simpl in Hk. replace k with O in * by lia. split; [reflexivity | exact Hx].
  - destruct k as [| k].
    + rewrite (bisect_right_of_point x (b :: rest) a Hmid Hs)
        by (simpl in Hx; lra).
      split; [lia | exact Hx].
    + pose proof Hs as Hs0.
      apply Sorted_inv in Hs as [Hrest Hhd]. apply HdRel_inv in Hhd.
      destruct (Hmid a b Hhd) as [_ Hb].
      change (nth (S k) (a :: b :: rest) 0) with (nth k (b :: rest) 0) in Hx.
      assert (Hk' : (k < length (b :: rest))%nat) by (simpl in *; lia).
      pose proof (sorted_head_le_nth rest b k Hrest Hk') as Hle.
      destruct (IH k Hrest Hk' Hx) as [Hlen Hnth].
      rewrite bisect_cons2.
      destruct (Qlt_bool (midpoint_x a b) x) eqn:E.
      * split.
        -- change (length (a :: midpoint_x a b :: bisect x (b :: rest)))
             with (S (S (length (bisect x (b :: rest))))).
           rewrite Hlen. simpl. lia.
        -- replace (2 * S k)%nat with (S (S (2 * k))) by lia. exact Hnth.
      * exfalso.
        assert (Hlt : midpoint_x a b < x) by lra.
        apply Qlt_bool_iff in Hlt. congruence.
Qed.

Lemma refine_step_at_vertex m x lo hi k :
  midpoint_between Qlt ->
  mesh_chain Qlt m lo hi -> (k <= num_cells m)%nat -> coord m k == x ->
  num_cells (refine_step m x) = (num_cells m + k)%nat /\
  coord (refine_step m x) (2 * k) == x.
Proof.
  intros Hmid (q & rest & Hc & Hcells & Hs & _ & _) Hk Hx.
  destruct (refine_step_chain m x q rest Hc Hcells) as [Hv Hcs].
  unfold num_cells, coord in *. rewrite Hcells, chain_cells_length in Hk.
  rewrite Hc in Hx.
  destruct (bisect_at_vertex x Hmid (q :: rest) k Hs) as [Hlen Hnth];
    [simpl; lia | exact Hx |].
  rewrite Hcs, Hv, Hcells, !chain_cells_length, Hlen.
  split; [simpl; lia | exact Hnth].
Qed.

Lemma pow2_pred_S j : (2 ^ S j - 1 = 2 * (2 ^ j - 1) + 1)%nat.
Proof.
  rewrite Nat.pow_succ_r'. pose proof (Nat.pow_nonzero 2 j). lia.
Qed.

Lemma refine_while_at_vertex x target lo hi :
  midpoint_between Qlt ->
  forall d m k,
    mesh_chain Qlt m lo hi ->
    (0 < k)%nat -> (k <= num_cells m)%nat -> coord m k == x ->
    (target - Z.of_nat (num_cells m) <= Z.of_nat d)%Z ->
    exists j m',
      refine_while (S d) target x m = Ret m' /\
      num_cells m' = (num_cells m + k * (2 ^ j - 1))%nat /\
      (target <= Z.of_nat (num_cells m'))%Z /\
      (j = O \/ (Z.of_nat (num_cells m + k * (2 ^ (j - 1) - 1)) < target)%Z).
Proof.
  intros Hmid d. induction d as [| d IH]; intros m k Hm Hpos Hk Hx Hd.
  - exists O, m. rewrite refine_while_S.
    destruct (Z.ltb_spec (Z.of_nat (num_cells m)) target); [lia |].
    split; [reflexivity |]. split; [simpl; lia |]. split; [lia | left; reflexivity].
  - rewrite refine_while_S.
    destruct (Z.ltb_spec (Z.of_nat (num_cells m)) target) as [Hlt | Hge].
    + destruct (refine_step_at_vertex m x lo hi k Hmid Hm Hk Hx) as [Hn Hx'].
      destruct (IH (refine_step m x) (2 * k)%nat) as (j & m' & Hr & Hc & Ht & Hmin).
      * apply mesh_chain_step; assumption.
      * lia.
      * lia.
      * exact Hx'.
      * lia.
      * exists (S j), m'. split; [exact Hr |].
        rewrite Hn in Hc, Hmin. split; [| split; [exact Ht |]].
        -- rewrite Hc, pow2_pred_S. lia.
        -- right. replace (S j - 1)%nat with j by lia.
           destruct Hmin as [-> | Hmin]; [simpl; lia |].
           destruct j as [| j]; [simpl; lia |].
           replace (S j - 1)%nat with j in Hmin by lia.
           rewrite pow2_pred_S. lia.
    + exists O, m.
      split; [reflexivity |]. split; [simpl; lia |]. split; [lia | left; reflexivity].
Qed.

(** X22.  Let the library's midpoint of two end points lie strictly
    between them.  With a single refinement whose point is vertex [k] of
    the initial mesh, [1 <= k <= n], every pass bisects exactly the cells
    left of the point, which doubles their number: [mesh_and_refine]
    terminates with [n + k * (2 ^ j - 1)] cells, where [j] is the least
    number of passes that reaches the target [n + cells].  The
    target is met exactly only when [cells] has the form
    [k * (2 ^ j - 1)]. *)
Theorem mesh_and_refine_at_vertex p n size nb_cells_ref x k :
  midpoint_between Qlt ->
  p_initial_number_of_cells p = Some n ->
  p_size p = Some size ->
  p_refinements p = Some [ {| r_cells := nb_cells_ref; r_x := x |} ] ->
  (0 < n)%Z -> 0 < size ->
  (0 < k)%nat -> (k <= Z.to_nat n)%nat ->
  coord (uniform_mesh n size) k == x ->
  exists j fuel m,
    mesh_and_refine fuel p = Ret m /\
    num_cells m = (Z.to_nat n + k * (2 ^ j - 1))%nat /\
    (n + nb_cells_ref <= Z.of_nat (num_cells m))%Z /\
    (j = O \/
     (Z.of_nat (Z.to_nat n + k * (2 ^ (j - 1) - 1)) < n + nb_cells_ref)%Z) /\
    (forall fuel' m', mesh_and_refine fuel' p = Ret m' -> m' = m).
Proof.
  intros Hmid Hn Hs Hr Hpos Hsize Hk0 Hk Hx.
  destruct (refine_while_at_vertex x (n + nb_cells_ref) 0 size Hmid
              (Z.to_nat nb_cells_ref) (uniform_mesh n size) k)
    as (j & m & Hw & Hc & Ht & Hmin).
  - apply uniform_mesh_chain; assumption.
  - exact Hk0.
  - rewrite uniform_mesh_num_cells. exact Hk.
  - exact Hx.
  - rewrite uniform_mesh_num_cells. lia.
  - rewrite uniform_mesh_num_cells in *.
    exists j, (S (Z.to_nat nb_cells_ref)), m.
    rewrite (mesh_and_refine_positive _ p n size) by assumption.
    rewrite Hr. cbn [refine_for r_cells r_x]. rewrite Hw. cbn [bind].
    split; [reflexivity |]. split; [exact Hc |]. split; [exact Ht |].
    split; [exact Hmin |].
    intros fuel' m' Hret.
    rewrite (mesh_and_refine_positive _ p n size) in Hret by assumption.
    rewrite Hr in Hret. cbn [refine_for r_cells r_x] in Hret.
    destruct (refine_while fuel' (n + nb_cells_ref) x (uniform_mesh n size))
      as [m1 | |] eqn:E; try discriminate.
    cbn [bind] in Hret. injection Hret as <-.
    destruct (Nat.le_ge_cases fuel' (S (Z.to_nat nb_cells_ref))) as [Hle | Hle].
    + rewrite (refine_while_fuel_mono _ _ _ _ _ _ E Hle) in Hw. congruence.
    + rewrite (refine_while_fuel_mono _ _ _ _ _ _ Hw Hle) in E. congruence.
Qed.

(** ** When the loop of a refinement terminates *)

Lemma chain_no_progress m lo hi x :
  midpoint_between Qle ->
  mesh_chain Qle m lo hi ->
  x <= cell_midpoint m 0 ->
  existsb (marked m x) (cells m) = false.
Proof.
  intros Hmid (q & rest & Hc & Hcells & Hs & _ & _) Hx.
  destruct (existsb _ _) eqn:E; [| reflexivity]. exfalso.
  apply existsb_exists in E as (c & Hin & Hc'). apply Qlt_bool_iff in Hc'.
  rewrite Hcells in Hin. unfold chain_cells in Hin.
  apply in_map_iff in Hin as (j & <- & Hj). apply in_seq in Hj.
  unfold cell_midpoint in Hx. rewrite Hcells in Hx.
  destruct rest as [| b rest]; [simpl in Hj; lia |].
  cbn [length] in Hx. rewrite chain_cells_S in Hx. cbn [nth] in Hx.
  unfold midpoint, coord in Hx, Hc'. rewrite Hc in Hx, Hc'.
  cbn [fst snd] in Hx, Hc'.
  destruct j as [| j]; [lra |].
  assert (H01 : nth 0 (q :: b :: rest) 0 <= nth 1 (q :: b :: rest) 0)
    by (apply sorted_le_nth; [exact Hs | lia | simpl; lia]).
  assert (H1j : nth 1 (q :: b :: rest) 0 <= nth (S j) (q :: b :: rest) 0)
    by (apply sorted_le_nth; [exact Hs | lia | simpl in *; lia]).
  assert (Hjj : nth (S j) (q :: b :: rest) 0 <= nth (S (S j)) (q :: b :: rest) 0)
    by (apply sorted_le_nth; [exact Hs | lia | simpl in *; lia]).
  destruct (Hmid _ _ H01) as [_ Hfirst].
  destruct (Hmid _ _ Hjj) as [Hcell _]. lra.
Qed.

(** X23.  Let the library's midpoint of two ordered end points lie between
    them.  With a single refinement that asks for at least one more
    cell, [mesh_and_refine] terminates exactly when the refinement point
    lies strictly right of the midpoint of the first cell of the initial
    mesh. *)
Theorem mesh_and_refine_terminates_iff p n size nb_cells_ref x :
  midpoint_between Qle ->
  p_initial_number_of_cells p = Some n ->
  p_size p = Some size ->
  p_refinements p = Some [ {| r_cells := nb_cells_ref; r_x := x |} ] ->
  (0 < n)%Z -> 0 < size -> (1 <= nb_cells_ref)%Z ->
  (exists fuel m, mesh_and_refine fuel p = Ret m) <->
  cell_midpoint (uniform_mesh n size) 0 < x.
Proof.
  intros Hmid Hn Hs Hr Hpos Hsize Hnb. split.
  - intros (fuel & m & Hret).
    destruct (Qlt_le_dec (cell_midpoint (uniform_mesh n size) 0) x)
      as [Hlt | Hle]; [exact Hlt | exfalso].
    rewrite (mesh_and_refine_positive fuel p n size) in Hret by assumption.
    rewrite Hr in Hret. cbn [refine_for r_cells r_x] in Hret.
    rewrite refine_while_stuck in Hret; [discriminate | |].
    + apply (chain_no_progress _ 0 size); [exact Hmid | | exact Hle].
      apply mesh_chain_lt_le, uniform_mesh_chain; assumption.
    + rewrite uniform_mesh_num_cells. lia.
  - intros Hx.
    destruct (refine_while_terminates (cell_midpoint (uniform_mesh n size) 0) x
                (n + nb_cells_ref) Hmid Hx (Z.to_nat nb_cells_ref)
                (uniform_mesh n size))
      as (m & Hw & _).
    + apply uniform_mesh_first_midpoint; assumption.
    + rewrite uniform_mesh_num_cells. lia.
    + exists (S (Z.to_nat nb_cells_ref)), m.
      rewrite (mesh_and_refine_positive _ p n size) by assumption.
      rewrite Hr. cbn [refine_for r_cells r_x]. rewrite Hw. reflexivity.
Qed.

(** ** Border validation *)

Lemma sorted_by_nonempty {A : Type} (key : A -> Q) (l : list A) :
  l <> [] -> sorted_by key l <> [].
Proof.
  intros Hne Hs. pose proof (sorted_by_perm key l) as Hp.
  rewrite Hs in Hp. apply Permutation_nil in Hp. contradiction.
Qed.

(** X7.  [check_borders] never returns [False]: on an empty materials list it
    raises an index error, and otherwise it returns [True] or raises one
    of its three value errors. *)
Theorem check_borders_true_or_raises size materials :
  (materials = [] ->
   exists msg, check_borders size materials = Raise (IndexError msg)) /\
  (materials <> [] ->
   check_borders size materials = Ret true \/
   check_borders size materials = Raise (ValueError msg_begin_at_zero) \/
   check_borders size materials = Raise (ValueError msg_match_each_other) \/
   check_borders size materials = Raise (ValueError msg_match_size)).
Proof.
  split.
  - intros ->. eexists. reflexivity.
  - intros Hne.
    destruct (sorted_by (fun b => num_val (fst b)) (map m_borders materials))
      as [| first rest] eqn:Hs.
    { exfalso. apply (sorted_by_nonempty _ _ (fun H => Hne (map_eq_nil _ _ H)) Hs). }
    destruct (check_borders_outcome size materials first rest Hs)
      as (Hzero & Hadj & Hsize & Hok).
    destruct (is_int_zero (fst first)) eqn:Ez; [| right; left; auto].
    destruct (check_adjacent_outcome (first :: rest)) as [[Hm _] | [Hm _]];
      [| right; right; left; auto].
    destruct (Qeq_dec (num_val (snd (List.last (first :: rest) first))) size)
      as [Hl | Hl]; [left; auto | right; right; right; auto].
Qed.

Lemma check_borders_passes size materials :
  check_borders size materials = Ret true ->
  exists first rest,
    sorted_by (fun b => num_val (fst b)) (map m_borders materials)
    = first :: rest /\
    is_int_zero (fst first) = true /\
    adjacent_match (first :: rest) /\
    num_val (snd (List.last (first :: rest) first)) == size.
Proof.
  intros H.
  destruct (sorted_by (fun b => num_val (fst b)) (map m_borders materials))
    as [| first rest] eqn:Hs.
  { unfold check_borders in H. rewrite Hs in H. discriminate. }
  destruct (check_borders_outcome size materials first rest Hs)
    as (Hzero & Hadj & Hsize & _).
  exists first, rest. split; [reflexivity |].
  destruct (is_int_zero (fst first)) eqn:Ez;
    [| rewrite Hzero in H by reflexivity; discriminate].
  destruct (check_adjacent_outcome (first :: rest)) as [[Hm _] | [Hm _]];
    [| rewrite Hadj in H by auto; discriminate].
  destruct (Qeq_dec (num_val (snd (List.last (first :: rest) first))) size)
    as [Hl | Hl]; [auto | rewrite Hsize in H by auto; discriminate].
Qed.

Lemma is_int_zero_val a : is_int_zero a = true -> num_val a == 0.
Proof.
  destruct a as [[| |] |]; simpl; intros H; try discriminate. reflexivity.
Qed.

Lemma last_cons_default {A : Type} (x : A) (l : list A) (d d' : A) :
  List.last (x :: l) d = List.last (x :: l) d'.
Proof.
  revert x. induction l as [| y l IH]; intros x; [reflexivity |].
  change (List.last (y :: l) d = List.last (y :: l) d'). apply IH.
Qed.

(** A chain of borders that match each other covers every point from
    its first lower bound to its last upper bound. *)
Lemma adjacent_match_covers (first : num * num) rest x :
  adjacent_match (first :: rest) ->
  num_val (fst first) <= x ->
  x <= num_val (snd (List.last (first :: rest) first)) ->
  exists b, In b (first :: rest) /\ num_val (fst b) <= x /\ x <= num_val (snd b).
Proof.
  revert first. induction rest as [| b' rest IH]; intros first Hadj Hlo Hhi.
  - exists first. simpl in *. auto.
  - destruct Hadj as [Hmatch Hadj].
    destruct (Qlt_le_dec (num_val (snd first)) x) as [Hgt | Hle].
    + destruct (IH b' Hadj) as (b & Hin & Hb).
      * rewrite <- Hmatch. lra.
      * change (List.last (first :: b' :: rest) first)
          with (List.last (b' :: rest) first) in Hhi.
        rewrite (last_cons_default b' rest first b') in Hhi. exact Hhi.
      * exists b. split; [right; exact Hin | exact Hb].
    + exists first. split; [left; reflexivity | auto].
Qed.

Lemma check_borders_ret size materials v :
  check_borders size materials = Ret v -> v = true.
Proof.
  unfold check_borders.
  destruct (sorted_by _ _) as [| first rest]; [discriminate |].
  destruct (negb (is_int_zero (fst first))); [discriminate |].
  destruct (check_adjacent (first :: rest)); try discriminate. cbn [bind].
  destruct (num_neq _ _); [discriminate |]. congruence.
Qed.

Lemma sorted_borders_material materials b :
  In b (sorted_by (fun b => num_val (fst b)) (map m_borders materials)) ->
  exists material, In material materials /\ m_borders material = b.
Proof.
  intros Hin.
  apply (Permutation_in _ (sorted_by_perm _ _)) in Hin.
  apply in_map_iff in Hin as (material & Hb & Hm). exists material. auto.
Qed.

(** X8.  When [check_borders] passes, every point of [[0, size]] lies in the
    closed border interval of some material. *)
Theorem check_borders_covers size materials x :
  check_borders size materials = Ret true ->
  0 <= x -> x <= size ->
  exists material,
    In material materials /\
    num_val (fst (m_borders material)) <= x /\
    x <= num_val (snd (m_borders material)).
Proof.
  intros Hpass Hlo Hhi.
  destruct (check_borders_passes size materials Hpass)
    as (first & rest & Hs & Hzero & Hadj & Hlast).
  apply is_int_zero_val in Hzero.
  destruct (adjacent_match_covers first rest x Hadj) as (b & Hin & Hb);
    [lra | lra |].
  rewrite <- Hs in Hin.
  destruct (sorted_borders_material materials b Hin) as (material & Hm & <-).
  exists material. auto.
Qed.

Lemma Qsum_perm (l l' : list Q) :
  Permutation l l' -> fold_right Qplus 0 l == fold_right Qplus 0 l'.
Proof.
  induction 1 as [| x l l' _ IH | x y l | l l' l'' _ IH1 _ IH2]; simpl.
  - reflexivity.
  - rewrite IH. reflexivity.
  - ring.
  - rewrite IH1. exact IH2.
Qed.

Lemma adjacent_match_telescopes (first : num * num) rest :
  adjacent_match (first :: rest) ->
  fold_right Qplus 0
    (map (fun b => num_val (snd b) - num_val (fst b)) (first :: rest))
  == num_val (snd (List.last (first :: rest) first)) - num_val (fst first).
Proof.
  revert first. induction rest as [| b' rest IH]; intros first Hadj.
  - simpl. ring.
  - destruct Hadj as [Hmatch Hadj]. specialize (IH b' Hadj).
    change (List.last (first :: b' :: rest) first)
      with (List.last (b' :: rest) first).
    rewrite (last_cons_default b' rest first b').
    cbn [map fold_right] in *. rewrite IH, Hmatch. ring.
Qed.

Lemma total_width_sum materials :
  total_width materials
  = fold_right Qplus 0
      (map (fun b => num_val (snd b) - num_val (fst b))
           (map m_borders materials)).
Proof.
  induction materials as [| material rest IH]; [reflexivity |].
  simpl. rewrite <- IH. reflexivity.
Qed.

(** X9.  When [check_borders] passes, the widths of the materials add up to
    the size of the domain. *)
Theorem check_borders_total_width size materials :
  check_borders size materials = Ret true ->
  total_width materials == size.
Proof.
  intros Hpass.
  destruct (check_borders_passes size materials Hpass)
    as (first & rest & Hs & Hzero & Hadj & Hlast).
  apply is_int_zero_val in Hzero.
  rewrite total_width_sum.
  rewrite (Qsum_perm _ _
             (Permutation_map (fun b => num_val (snd b) - num_val (fst b))
                (Permutation_sym
                   (sorted_by_perm (fun b => num_val (fst b))
                                   (map m_borders materials))))).
  rewrite Hs, (adjacent_match_telescopes first rest Hadj), Hlast, Hzero. ring.
Qed.

(** ** Validation and tagging together *)

Lemma validated_cells_tagged mesh materials size lo hi cell :
  midpoint_between Qle ->
  mesh_chain Qle mesh lo hi -> 0 <= lo -> hi <= size ->
  check_borders size materials = Ret true ->
  length materials <> 1%nat ->
  (cell < num_cells mesh)%nat ->
  exists material,
    In material materials /\
    num_val (fst (m_borders material)) <= cell_midpoint mesh cell /\
    cell_midpoint mesh cell <= num_val (snd (m_borders material)) /\
    fst (subdomains_1D mesh materials size) !! cell = Some (m_id material).
Proof.
  intros Hbetween Hint Hlo Hhi Hcheck Hlen Hcell.
  rewrite subdomains_1D_cell by exact Hcell.
  apply Nat.eqb_neq in Hlen. rewrite Hlen.
  assert (Hin : In (nth cell (cells mesh) (O, O)) (cells mesh))
    by (apply nth_In; exact Hcell).
  destruct (mesh_chain_cell mesh lo hi _ Hint Hin) as (H0 & Hle & H1).
  assert (Hmid : 0 <= cell_midpoint mesh cell /\ cell_midpoint mesh cell <= size).
  { unfold cell_midpoint, midpoint. destruct (Hbetween _ _ Hle) as [Ha Hb].
    split; lra. }
  destruct Hmid as [Hmid0 Hmid1].
  destruct (check_borders_passes size materials Hcheck)
    as (first & rest & Hsorted & Hzero & Hadj & Hlast).
  apply is_int_zero_val in Hzero.
  destruct (adjacent_match_covers first rest (cell_midpoint mesh cell) Hadj)
    as (b & Hb & Hclo & Hchi); [lra | lra |].
  rewrite <- Hsorted in Hb.
  destruct (sorted_borders_material materials b Hb) as (covering & Hcin & <-).
  destruct (tag_value_cases false (cell_midpoint mesh cell) materials)
    as [[Hnone _] | (mat & Hmin & Hap & Hval)].
  - exfalso. destruct (Hnone covering Hcin) as [_ E].
    assert (inside covering (cell_midpoint mesh cell) = true)
      by (apply inside_iff; auto).
    congruence.
  - destruct Hap as [Hap | Hap]; [discriminate |].
    apply inside_iff in Hap as [Hl Hh].
    exists mat. rewrite Hval. auto.
Qed.

Section TaggingProperties.
Variable read_subdomains_from_xdmf :
  Mesh -> string -> string -> outcome (MarkerValue * MarkerValue).

Lemma subdomains_computed mesh mesh_parameters materials :
  p_cells_file mesh_parameters = None ->
  not_a_meshfunction (p_meshfunction_cells mesh_parameters) ->
  subdomains read_subdomains_from_xdmf mesh
    (mkParameters mesh_parameters materials)
  = let* size := match p_vertices mesh_parameters with
                 | Some vertices => py_max vertices
                 | None => getitem "size" (p_size mesh_parameters)
                 end in
    validate_and_tag mesh materials size.
Proof.
  intros Hc Hm. unfold subdomains, validate_and_tag.
  cbn [params_mesh_parameters params_materials]. rewrite Hc.
  destruct Hm as [-> | ->]; reflexivity.
Qed.

(** X10.  Let the library's midpoint of two end points lie between them.
    On a generated and refined mesh with two or more materials, when
    [subdomains] returns, validation has passed and every cell carries
    the id of a material whose border interval contains its midpoint: no
    cell keeps the default tag for want of a material. *)
Theorem subdomains_tags_every_cell fuel mesh_parameters materials mesh n size
    volume_markers surface_markers :
  midpoint_between Qle ->
  p_cells_file mesh_parameters = None ->
  not_a_meshfunction (p_meshfunction_cells mesh_parameters) ->
  p_vertices mesh_parameters = None ->
  p_initial_number_of_cells mesh_parameters = Some n ->
  p_size mesh_parameters = Some size ->
  (0 < n)%Z -> 0 < size ->
  mesh_and_refine fuel mesh_parameters = Ret mesh ->
  (1 < length materials)%nat ->
  subdomains read_subdomains_from_xdmf mesh
    (mkParameters mesh_parameters materials)
  = Ret (volume_markers, surface_markers) ->
  check_borders size materials = Ret true /\
  exists tags,
    volume_markers = IsMeshFunction tags /\
    length tags = num_cells mesh /\
    forall cell, (cell < num_cells mesh)%nat ->
      exists material,
        In material materials /\
        num_val (fst (m_borders material)) <= cell_midpoint mesh cell /\
        cell_midpoint mesh cell <= num_val (snd (m_borders material)) /\
        tags !! cell = Some (m_id material).
Proof.
  intros Hbetween Hcf Hmf Hv Hn Hs Hpos Hsize Hmesh Hlen Hsub.
  rewrite subdomains_computed in Hsub by assumption.
  rewrite Hv, Hs in Hsub. cbn [getitem bind] in Hsub.
  unfold validate_and_tag in Hsub.
  apply Nat.ltb_lt in Hlen as Hlen'. rewrite Hlen' in Hsub.
  destruct (check_borders size materials) as [v | |] eqn:Hcheck;
    try discriminate.
  pose proof (check_borders_ret _ _ _ Hcheck) as ->.
  cbn [bind] in Hsub. injection Hsub as <- <-.
  split; [reflexivity |].
  exists (fst (subdomains_1D mesh materials size)).
  split; [reflexivity |].
  split; [apply subdomains_1D_lengths |].
  intros cell Hcell.
  assert (Hint : mesh_chain Qle mesh 0 size).
  { apply (mesh_and_refine_chain Qle fuel mesh_parameters n size mesh Hbetween);
      try assumption.
    apply mesh_chain_lt_le, uniform_mesh_chain; assumption. }
  apply (validated_cells_tagged mesh materials size 0 size cell Hbetween Hint);
    try assumption; try lra; lia.
Qed.
End TaggingProperties.

(** ** Overlapping materials *)

Lemma tag_value_app single x pre post old :
  tag_value single x (pre ++ post) old
  = tag_value single x post (tag_value single x pre old).
Proof.
  unfold tag_value. apply fold_left_app.
Qed.

(** X11.  Where border intervals overlap, the material listed last wins: with
    a list that is not a single material, a cell whose midpoint lies in
    the interval of a material and in that of no material listed after
    it carries that material's id.  In particular a midpoint on the
    border shared by two materials gets the id of the one listed later. *)
Theorem subdomains_1D_last_material_wins mesh pre material post size cell :
  length (pre ++ material :: post) <> 1%nat ->
  (cell < num_cells mesh)%nat ->
  inside material (cell_midpoint mesh cell) = true ->
  (forall later, In later post ->
     inside later (cell_midpoint mesh cell) = false) ->
  fst (subdomains_1D mesh (pre ++ material :: post) size) !! cell
  = Some (m_id material).
Proof.
  intros Hlen Hcell Hin Hpost.
  rewrite subdomains_1D_cell by exact Hcell.
  apply Nat.eqb_neq in Hlen. rewrite Hlen. f_equal.
  rewrite tag_value_app.
  change (material :: post) with ([material] ++ post)%list.
  rewrite tag_value_app.
  destruct (tag_value_cases false (cell_midpoint mesh cell) post)
    as [[_ Hold] | (later & Hlater & Hap & _)].
  - rewrite Hold. unfold tag_value at 1. cbn [fold_left]. rewrite Hin.
    reflexivity.
  - destruct Hap as [Hap | Hap]; [discriminate |].
    rewrite (Hpost later Hlater) in Hap. discriminate.
Qed.

(** ** Facets of the uniform mesh *)

Lemma near_self x y : x == y -> near x y = true.
Proof.
  intros H. unfold near, DOLFIN_EPS.
  apply andb_true_iff. rewrite !Qle_bool_iff. split; lra.
Qed.

Lemma near_far_below x y : x + DOLFIN_EPS < y -> near x y = false.
Proof.
  intros H. unfold near. apply andb_false_iff. left.
  destruct (Qle_bool (y - DOLFIN_EPS) x) eqn:E; [| reflexivity].
  apply Qle_bool_iff in E. lra.
Qed.

Lemma near_far_above x y : y + DOLFIN_EPS < x -> near x y = false.
Proof.
  intros H. unfold near. apply andb_false_iff. right.
  destruct (Qle_bool x (y + DOLFIN_EPS)) eqn:E; [| reflexivity].
  apply Qle_bool_iff in E. lra.
Qed.

Lemma inject_Z_mult_le (a b : Z) (step : Q) :
  0 <= step -> (a <= b)%Z -> inject_Z a * step <= inject_Z b * step.
Proof.
  intros Hs Hab. apply Qmult_le_compat_r; [| exact Hs].
  rewrite <- Zle_Qle. exact Hab.
Qed.

(** X12.  On the uniform mesh with cells longer than the tolerance of [near],
    the facet tags are exactly: 1 on vertex [0], 2 on vertex [n], and 0
    on every vertex in between. *)
Theorem subdomains_1D_uniform_facets n size materials f :
  (0 < n)%Z -> 0 < size ->
  DOLFIN_EPS < size / inject_Z n ->
  (f <= Z.to_nat n)%nat ->
  snd (subdomains_1D (uniform_mesh n size) materials size) !! f
  = Some (if (f =? 0)%nat then 1%nat
          else if (f =? Z.to_nat n)%nat then 2%nat else 0%nat).
Proof.
  intros Hn Hs Hstep Hf. pose proof (inject_Z_pos n Hn) as Hq.
  assert (Hnv : num_vertices (uniform_mesh n size) = S (Z.to_nat n)).
  { unfold num_vertices, uniform_mesh. cbn [coordinates].
    rewrite length_map, length_seq. reflexivity. }
  rewrite subdomains_1D_facet by (rewrite Hnv; lia). f_equal.
  set (step := size / inject_Z n) in *.
  assert (Hcoord : coord (uniform_mesh n size) f
                   == inject_Z (Z.of_nat f) * step).
  { rewrite uniform_mesh_coord by exact Hf. unfold step. field. lra. }
  assert (Hsize : size == inject_Z n * step) by (unfold step; field; lra).
  assert (Heps : 0 < DOLFIN_EPS) by reflexivity.
  assert (Hstep0 : 0 <= step) by lra.
  unfold facet_tag.
  destruct (Nat.eqb_spec f 0) as [-> | Hf0].
  - change (inject_Z (Z.of_nat 0)) with 0 in Hcoord.
    pose proof (inject_Z_mult_le 1 n step Hstep0 ltac:(lia)) as H1.
    change (inject_Z 1) with 1 in H1.
    rewrite near_far_below by lra. rewrite near_self by lra. reflexivity.
  - destruct (Nat.eqb_spec f (Z.to_nat n)) as [-> | Hfn].
    + rewrite Z2Nat.id in Hcoord by lia. rewrite near_self by lra. reflexivity.
    + pose proof (inject_Z_mult_le 1 (Z.of_nat f) step Hstep0 ltac:(lia)) as H1.
      pose proof (inject_Z_mult_le (Z.of_nat f + 1) n step Hstep0 ltac:(lia)) as H2.
      rewrite inject_Z_plus in H2.
      change (inject_Z 1) with 1 in H1, H2.
      rewrite near_far_below by lra. rewrite near_far_above by lra. reflexivity.
Qed.

(** ** Reading markers from files *)

Section XDMFProperties.
Variable XDMFFile_read : string -> string -> outcome (list nat).

(** X13.  [read_subdomains_from_xdmf] reads the attribute ["f"] of the
    volumetric file first.  If that read raises, whatever the exception,
    the call raises a value error naming the volumetric file and the
    boundary file is not consulted; if the volumetric read succeeds and
    the boundary read raises, it raises a value error naming the
    boundary file; if both succeed it returns the two marker arrays as
    read.  So the only exceptions it raises are these two value errors. *)
Theorem read_subdomains_from_xdmf_errors mesh volumetric_file boundary_file :
  (forall e, XDMFFile_read volumetric_file "f" = Raise e ->
     read_subdomains_from_xdmf XDMFFile_read mesh volumetric_file boundary_file
     = Raise (ValueError (msg_attribute_f volumetric_file))) /\
  (forall volume_markers e,
     XDMFFile_read volumetric_file "f" = Ret volume_markers ->
     XDMFFile_read boundary_file "f" = Raise e ->
     read_subdomains_from_xdmf XDMFFile_read mesh volumetric_file boundary_file
     = Raise (ValueError (msg_attribute_f boundary_file))) /\
  (forall volume_markers surface_markers,
     XDMFFile_read volumetric_file "f" = Ret volume_markers ->
     XDMFFile_read boundary_file "f" = Ret surface_markers ->
     read_subdomains_from_xdmf XDMFFile_read mesh volumetric_file boundary_file
     = Ret (IsMeshFunction volume_markers, IsMeshFunction surface_markers)) /\
  (forall e,
     read_subdomains_from_xdmf XDMFFile_read mesh volumetric_file boundary_file
     = Raise e ->
     e = ValueError (msg_attribute_f volumetric_file) \/
     e = ValueError (msg_attribute_f boundary_file)).
Proof.
  unfold read_subdomains_from_xdmf.
  split; [| split; [| split]].
  - intros e ->. reflexivity.
  - intros vm e -> ->. reflexivity.
  - intros vm sm -> ->. reflexivity.
  - intros e.
    destruct (XDMFFile_read volumetric_file "f") as [vm | e1 |];
      cbn [try_except_raise bind]; [| intros [= <-]; left; reflexivity | discriminate].
    destruct (XDMFFile_read boundary_file "f") as [sm | e2 |];
      cbn [try_except_raise bind]; [discriminate | | discriminate].
    intros [= <-]. right. reflexivity.
Qed.
End XDMFProperties.

(** ** The source of the markers *)

Section MarkerSourceProperties.
Variable read_subdomains_from_xdmf :
  Mesh -> string -> string -> outcome (MarkerValue * MarkerValue).

(** X14.  [subdomains] takes the markers from the first source present: the
    marker files, then a ready-made cell marker object.  With a cells
    file, both files are read and materials, borders and sizes play no
    part; a missing ["facets_file"] raises.  With a ready-made cell
    marker, the value under ["meshfunction_facets"] is returned with it
    unchanged, whatever it is, and its absence raises. *)
Theorem subdomains_marker_source mesh mesh_parameters materials :
  (forall cells_file facets_file,
     p_cells_file mesh_parameters = Some cells_file ->
     p_facets_file mesh_parameters = Some facets_file ->
     subdomains read_subdomains_from_xdmf mesh
       (mkParameters mesh_parameters materials)
     = read_subdomains_from_xdmf mesh cells_file facets_file) /\
  (forall cells_file,
     p_cells_file mesh_parameters = Some cells_file ->
     p_facets_file mesh_parameters = None ->
     subdomains read_subdomains_from_xdmf mesh
       (mkParameters mesh_parameters materials)
     = Raise (KeyError "facets_file")) /\
  (forall volume_markers surface_markers,
     p_cells_file mesh_parameters = None ->
     p_meshfunction_cells mesh_parameters = Some (IsMeshFunction volume_markers) ->
     p_meshfunction_facets mesh_parameters = Some surface_markers ->
     subdomains read_subdomains_from_xdmf mesh
       (mkParameters mesh_parameters materials)
     = Ret (IsMeshFunction volume_markers, surface_markers)) /\
  (forall volume_markers,
     p_cells_file mesh_parameters = None ->
     p_meshfunction_cells mesh_parameters = Some (IsMeshFunction volume_markers) ->
     p_meshfunction_facets mesh_parameters = None ->
     subdomains read_subdomains_from_xdmf mesh
       (mkParameters mesh_parameters materials)
     = Raise (KeyError "meshfunction_facets")).
Proof.
  unfold subdomains. cbn [params_mesh_parameters].
  split; [| split; [| split]].
  - intros cf ff -> ->. reflexivity.
  - intros cf -> ->. reflexivity.
  - intros vm sm -> -> ->. reflexivity.
  - intros vm -> -> ->. reflexivity.
Qed.

Lemma replicate_lookup_eq {A : Type} (l : list A) (n : nat) (x : A) :
  length l = n -> (forall i, (i < n)%nat -> l !! i = Some x) -> l = replicate n x.
Proof.
  intros Hlen H. apply list_eq. intros i.
  destruct (decide (i < n)%nat) as [Hi | Hi].
  - rewrite H, lookup_replicate_2 by exact Hi. reflexivity.
  - rewrite !lookup_ge_None_2; [reflexivity | rewrite length_replicate; lia | lia].
Qed.

(** X15.  With exactly one material and a configured size, [subdomains] on the
    computed branch never raises: the borders of the lone material are
    not validated, however they read, and every cell is tagged with its
    id. *)
Theorem subdomains_single_material_unchecked mesh mesh_parameters material size :
  p_cells_file mesh_parameters = None ->
  not_a_meshfunction (p_meshfunction_cells mesh_parameters) ->
  p_vertices mesh_parameters = None ->
  p_size mesh_parameters = Some size ->
  subdomains read_subdomains_from_xdmf mesh
    (mkParameters mesh_parameters [material])
  = Ret (IsMeshFunction (replicate (num_cells mesh) (m_id material)),
         IsMeshFunction (snd (subdomains_1D mesh [material] size))).
Proof.
  intros Hcf Hmf Hv Hs.
  rewrite subdomains_computed by assumption. rewrite Hv, Hs.
  cbn [getitem bind]. unfold validate_and_tag. cbn [length Nat.ltb Nat.leb bind].
  do 3 f_equal. apply replicate_lookup_eq; [apply subdomains_1D_lengths |].
  intros cell Hcell. rewrite subdomains_1D_cell by exact Hcell. reflexivity.
Qed.

End MarkerSourceProperties.

(** ** The mesh built from vertices, again *)

Lemma drop_repeats_of_id p l :
  StronglySorted Qlt (p :: l) -> drop_repeats_of p l = l.
Proof.
  revert p. induction l as [| y l IH]; intros p Hs; [reflexivity |].
  apply StronglySorted_inv in Hs as [Hyl Hp].
  inversion Hp as [| ? ? Hpy _]; subst. simpl.
  destruct (Qeq_bool p y) eqn:E; [apply Qeq_bool_iff in E; lra |].
  rewrite IH by exact Hyl. reflexivity.
Qed.

Lemma np_unique_id l : StronglySorted Qlt l -> np_unique l = l.
Proof.
  intros Hs. unfold np_unique, sorted.
  rewrite (sorted_by_id (fun x => x)) by (apply strictly_sorted_le; exact Hs).
  destruct l as [| p l]; [reflexivity |].
  simpl. rewrite drop_repeats_of_id by exact Hs. reflexivity.
Qed.

Lemma generate_mesh_from_vertices_nonempty vertices m :
  generate_mesh_from_vertices vertices = Ret m -> vertices <> [].
Proof.
  intros H ->. vm_compute in H. discriminate.
Qed.

(** X16.  Building a mesh from the vertices of a mesh that was built from
    vertices gives that mesh again. *)
Theorem generate_mesh_from_vertices_round_trip vertices m :
  generate_mesh_from_vertices vertices = Ret m ->
  generate_mesh_from_vertices (coordinates m) = Ret m.
Proof.
  intros H.
  pose proof (generate_mesh_from_vertices_nonempty vertices m H) as Hne.
  rewrite generate_mesh_from_vertices_eq in H by exact Hne.
  injection H as <-. cbn [coordinates].
  assert (Hne' : np_unique vertices <> []).
  { pose proof (count_distinct_pos vertices Hne) as Hpos.
    rewrite <- np_unique_length in Hpos. intros E. rewrite E in Hpos.
    simpl in Hpos. lia. }
  rewrite generate_mesh_from_vertices_eq by exact Hne'.
  rewrite <- (np_unique_length (np_unique vertices)).
  rewrite (np_unique_id (np_unique vertices)) by apply np_unique_sorted.
  rewrite np_unique_length. reflexivity.
Qed.

Lemma generated_mesh_chain vertices :
  vertices <> [] ->
  mesh_chain Qle
    {| coordinates := np_unique vertices;
       cells := map (fun j => (j, S j)) (seq 0 (count_distinct vertices - 1)) |}
    (nth 0 (np_unique vertices) 0)
    (nth (count_distinct vertices - 1) (np_unique vertices) 0).
Proof.
  intros Hne. pose proof (count_distinct_pos vertices Hne) as Hpos.
  pose proof (np_unique_length vertices) as Hlen.
  pose proof (np_unique_sorted vertices) as Hs.
  destruct (np_unique vertices) as [| q rest] eqn:E; [simpl in Hlen; lia |].
  exists q, rest. cbn [coordinates cells]. simpl in Hlen.
  replace (count_distinct vertices - 1)%nat with (length rest) by lia.
  split; [reflexivity |]. split; [reflexivity |].
  split; [apply sorted_lt_le, StronglySorted_Sorted; exact Hs |].
  split; [reflexivity |]. rewrite nth_last_cons. reflexivity.
Qed.

Lemma InA_nth (l : list Q) (v : Q) :
  InA Qeq v l -> exists i, (i < length l)%nat /\ nth i l 0 == v.
Proof.
  intros H. apply InA_alt in H as (y & Hvy & Hy).
  apply (In_nth _ _ 0) in Hy as (i & Hi & <-).
  exists i. split; [exact Hi | symmetry; exact Hvy].
Qed.

Lemma np_unique_extent vertices v :
  In v vertices ->
  nth 0 (np_unique vertices) 0 <= v /\
  v <= nth (count_distinct vertices - 1) (np_unique vertices) 0.
Proof.
  intros Hv.
  assert (HinA : InA Qeq v (np_unique vertices)).
  { apply np_unique_values. apply InA_alt. exists v. split; [reflexivity | exact Hv]. }
  apply InA_nth in HinA as (i & Hi & Hnth).
  pose proof (np_unique_sorted vertices) as Hs.
  rewrite np_unique_length in Hi. rewrite <- Hnth. split.
  - destruct i as [| i]; [lra |].
    apply Qlt_le_weak, strictly_sorted_nth;
      [exact Hs | lia | rewrite np_unique_length; exact Hi].
  - destruct (decide (i = count_distinct vertices - 1)%nat) as [-> | Hne]; [lra |].
    apply Qlt_le_weak, strictly_sorted_nth;
      [exact Hs | lia | rewrite np_unique_length; lia].
Qed.

Lemma np_unique_last_max x l size :
  py_max (x :: l) = Ret size ->
  nth (count_distinct (x :: l) - 1) (np_unique (x :: l)) 0 == size.
Proof.
  intros Hmax.
  destruct (py_max_spec x l) as (size' & Hmax' & Hin & Hub).
  rewrite Hmax in Hmax'. injection Hmax' as <-.
  apply Qle_antisym.
  - assert (Hpos : (1 <= count_distinct (x :: l))%nat)
      by (apply count_distinct_pos; discriminate).
    assert (HinA : InA Qeq (nth (count_distinct (x :: l) - 1)
                                (np_unique (x :: l)) 0) (x :: l)).
    { apply np_unique_values. apply In_InA; [typeclasses eauto |].
      apply nth_In. rewrite np_unique_length. lia. }
    apply InA_alt in HinA as (y & Hy & Hyin). rewrite Hy. apply Hub. exact Hyin.
  - apply (np_unique_extent (x :: l) size Hin).
Qed.

(** X17.  The mesh built from a vertex list spans from the smallest to the
    largest of them: its first vertex is one of the given values and no
    given value is left of it, its last vertex is the largest given
    value, and with the size [max(vertices)] that [subdomains] computes
    for it, its last vertex is tagged 2 whatever the materials. *)
Theorem generate_mesh_from_vertices_extent vertices :
  vertices <> [] ->
  exists mesh size,
    generate_mesh_from_vertices vertices = Ret mesh /\
    py_max vertices = Ret size /\
    coord mesh (num_vertices mesh - 1) == size /\
    InA Qeq (coord mesh 0) vertices /\
    InA Qeq size vertices /\
    (forall v, In v vertices -> coord mesh 0 <= v /\ v <= size) /\
    forall materials,
      snd (subdomains_1D mesh materials size) !! (num_vertices mesh - 1)%nat
      = Some 2%nat.
Proof.
  intros Hne. destruct vertices as [| x l]; [contradiction |].
  destruct (py_max_spec x l) as (size & Hmax & Hin & Hub).
  pose proof (np_unique_last_max x l size Hmax) as Hlast.
  pose proof (count_distinct_pos (x :: l) Hne) as Hpos.
  eexists. exists size.
  split; [apply generate_mesh_from_vertices_eq; exact Hne |].
  split; [exact Hmax |].
  unfold coord, num_vertices. cbn [coordinates]. rewrite np_unique_length.
  split; [exact Hlast |].
  split; [apply np_unique_values; apply In_InA; [typeclasses eauto |];
          apply nth_In; rewrite np_unique_length; lia |].
  split; [apply In_InA; [typeclasses eauto | exact Hin] |]. split.
  - intros v Hv. split; [apply (np_unique_extent (x :: l) v Hv) | apply Hub; exact Hv].
  - intros materials.
    rewrite subdomains_1D_facet
      by (unfold num_vertices; cbn [coordinates]; rewrite np_unique_length; lia).
    unfold facet_tag, coord. cbn [coordinates].
    rewrite near_self by exact Hlast. reflexivity.
Qed.

Section VertexTaggingProperties.
Variable read_subdomains_from_xdmf :
  Mesh -> string -> string -> outcome (MarkerValue * MarkerValue).

(** X18.  Let the library's midpoint of two end points lie between them.
    On a mesh built from a list of vertices none of which is negative,
    with two or more materials, when [subdomains] returns, validation
    has passed against the largest vertex and every cell carries the id
    of a material whose border interval contains its midpoint. *)
Theorem subdomains_tags_every_cell_of_vertices mesh_parameters materials
    vertices mesh volume_markers surface_markers :
  midpoint_between Qle ->
  p_cells_file mesh_parameters = None ->
  not_a_meshfunction (p_meshfunction_cells mesh_parameters) ->
  p_vertices mesh_parameters = Some vertices ->
  (forall v, In v vertices -> 0 <= v) ->
  generate_mesh_from_vertices vertices = Ret mesh ->
  (1 < length materials)%nat ->
  subdomains read_subdomains_from_xdmf mesh
    (mkParameters mesh_parameters materials)
  = Ret (volume_markers, surface_markers) ->
  exists size tags,
    py_max vertices = Ret size /\
    check_borders size materials = Ret true /\
    volume_markers = IsMeshFunction tags /\
    length tags = num_cells mesh /\
    forall cell, (cell < num_cells mesh)%nat ->
      exists material,
        In material materials /\
        num_val (fst (m_borders material)) <= cell_midpoint mesh cell /\
        cell_midpoint mesh cell <= num_val (snd (m_borders material)) /\
        tags !! cell = Some (m_id material).
Proof.
  intros Hbetween Hcf Hmf Hv Hnonneg Hmesh Hlen Hsub.
  pose proof (generate_mesh_from_vertices_nonempty vertices mesh Hmesh) as Hne.
  destruct vertices as [| x l]; [contradiction |].
  destruct (py_max_spec x l) as (size & Hmax & Hin & Hub).
  rewrite subdomains_computed in Hsub by assumption.
  rewrite Hv, Hmax in Hsub. cbn [bind] in Hsub.
  unfold validate_and_tag in Hsub.
  apply Nat.ltb_lt in Hlen as Hlen'. rewrite Hlen' in Hsub.
  destruct (check_borders size materials) as [v | |] eqn:Hcheck;
    try discriminate.
  pose proof (check_borders_ret _ _ _ Hcheck) as ->.
  cbn [bind] in Hsub. injection Hsub as <- <-.
  exists size, (fst (subdomains_1D mesh materials size)).
  split; [exact Hmax |]. split; [exact Hcheck |]. split; [reflexivity |].
  split; [apply subdomains_1D_lengths |].
  intros cell Hcell.
  rewrite generate_mesh_from_vertices_eq in Hmesh by exact Hne.
  injection Hmesh as <-.
  apply (validated_cells_tagged _ materials size _ _ cell Hbetween
           (generated_mesh_chain (x :: l) Hne));
    try assumption; try lia.
  - assert (HinA : InA Qeq (nth 0 (np_unique (x :: l)) 0) (x :: l)).
    { apply np_unique_values. apply In_InA; [typeclasses eauto |].
      apply nth_In. rewrite np_unique_length.
      pose proof (count_distinct_pos (x :: l) Hne). lia. }
    apply InA_alt in HinA as (y & Hy & Hyin). rewrite Hy.
    apply Hnonneg. exact Hyin.
  - rewrite (np_unique_last_max x l size Hmax). lra.
Qed.
End VertexTaggingProperties.

(** ** Border validation, characterised *)

(** X19.  [check_borders] returns [True] exactly when, on the borders sorted
    by lower bound, the first lower bound is the integer object [0],
    every upper bound equals the next lower bound, and the last upper
    bound equals the size. *)
Theorem check_borders_passes_iff size materials :
  check_borders size materials = Ret true <->
  exists first rest,
    sorted_by (fun b => num_val (fst b)) (map m_borders materials)
    = first :: rest /\
    is_int_zero (fst first) = true /\
    adjacent_match (first :: rest) /\
    num_val (snd (List.last (first :: rest) first)) == size.
Proof.
  split.
  - apply check_borders_passes.
  - intros (first & rest & Hs & Hzero & Hadj & Hlast).
    destruct (check_borders_outcome size materials first rest Hs)
      as (_ & _ & _ & Hok).
    apply Hok; assumption.
Qed.

(** ** What refinement leaves in place *)

Lemma mesh_chain_impl (R R' : Q -> Q -> Prop) m lo hi :
  (forall a b, R a b -> R' a b) ->
  mesh_chain R m lo hi -> mesh_chain R' m lo hi.
Proof.
  intros Himpl (q & rest & Hc & Hcells & Hs & Hlo & Hhi).
  exists q, rest. split; [exact Hc |]. split; [exact Hcells |].
  split; [| split; assumption].
  clear Hc Hlo Hhi. induction Hs as [| a l Hs IH Hhd]; constructor;
    [exact IH |].
  destruct Hhd; constructor. apply Himpl. assumption.
Qed.

Lemma bisect_sublist x l : l `sublist_of` bisect x l.
Proof.
  induction l as [| a rest IH]; [constructor |].
  destruct rest as [| b rest]; [reflexivity |].
  rewrite bisect_cons2. destruct (Qlt_bool (midpoint_x a b) x).
  - apply sublist_skip, sublist_cons. exact IH.
  - apply sublist_skip. exact IH.
Qed.

Lemma bisect_new_left x l q : In q (bisect x l) -> In q l \/ q < x.
Proof.
  revert q. induction l as [| a rest IH]; intros q Hin; [left; exact Hin |].
  destruct rest as [| b rest]; [left; exact Hin |].
  rewrite bisect_cons2 in Hin.
  destruct (Qlt_bool (midpoint_x a b) x) eqn:E.
  - destruct Hin as [<- | [<- | Hin]].
    + left. left. reflexivity.
    + right. apply Qlt_bool_iff. exact E.
    + destruct (IH q Hin) as [H | H]; [left; right; exact H | right; exact H].
  - destruct Hin as [<- | Hin].
    + left. left. reflexivity.
    + destruct (IH q Hin) as [H | H]; [left; right; exact H | right; exact H].
Qed.

Lemma refine_while_vertices (R : Q -> Q -> Prop) fuel target x m m' lo hi :
  midpoint_between R -> mesh_chain R m lo hi ->
  refine_while fuel target x m = Ret m' ->
  coordinates m `sublist_of` coordinates m' /\
  forall q, In q (coordinates m') -> In q (coordinates m) \/ q < x.
Proof.
  intros Hmid. revert m. induction fuel as [| fuel IH]; intros m Hm H;
    [discriminate |].
  rewrite refine_while_S in H.
  destruct (Z.of_nat (num_cells m) <? target)%Z.
  - destruct (IH _ (mesh_chain_step R m x lo hi Hmid Hm) H) as [Hsub Hnew].
    destruct Hm as (q0 & rest & Hc & Hcells & _).
    destruct (refine_step_chain m x q0 rest Hc Hcells) as [Hv _].
    rewrite Hv, <- Hc in Hsub, Hnew. split.
    + transitivity (bisect x (coordinates m)); [apply bisect_sublist | exact Hsub].
    + intros q Hq. destruct (Hnew q Hq) as [Hin | Hlt]; [| right; exact Hlt].
      apply bisect_new_left. exact Hin.
  - injection H as <-. split; [reflexivity | intros q Hq; left; exact Hq].
Qed.

Lemma refine_for_vertices (R : Q -> Q -> Prop) fuel refinements :
  midpoint_between R ->
  forall initial m m' lo hi,
    mesh_chain R m lo hi ->
    refine_for fuel refinements initial m = Ret m' ->
    coordinates m `sublist_of` coordinates m' /\
    forall q, In q (coordinates m') ->
      In q (coordinates m) \/ Exists (fun r => q < r_x r) refinements.
Proof.
  intros Hmid. induction refinements as [| r rs IH];
    intros initial m m' lo hi Hm H.
  - injection H as <-. split; [reflexivity | intros q Hq; left; exact Hq].
  - cbn [refine_for] in H.
    destruct (refine_while fuel (initial + r_cells r) (r_x r) m)
      as [m1 | |] eqn:E; try discriminate.
    cbn [bind] in H.
    destruct (refine_while_vertices R _ _ _ _ _ lo hi Hmid Hm E) as [Hsub1 Hnew1].
    pose proof (refine_while_chain R _ _ _ _ _ lo hi Hmid E Hm) as Hm1.
    destruct (IH _ _ _ lo hi Hm1 H) as [Hsub Hnew]. split.
    + transitivity (coordinates m1); assumption.
    + intros q Hq. destruct (Hnew q Hq) as [Hin | Hex].
      * destruct (Hnew1 q Hin) as [Hin1 | Hlt];
          [left; exact Hin1 | right; apply Exists_cons_hd; exact Hlt].
      * right. apply Exists_cons_tl. exact Hex.
Qed.

(** X3.  Refinement leaves the vertices of the initial mesh in place and
    adds vertices only left of a refinement point: the vertices of the
    uniform mesh are all among those of the mesh [mesh_and_refine]
    returns, in the same order, and every other vertex of that mesh lies
    strictly left of the point of one of the refinements. *)
Theorem mesh_and_refine_adds_vertices_left fuel p n size refinements m :
  p_initial_number_of_cells p = Some n ->
  p_size p = Some size ->
  p_refinements p = Some refinements ->
  (0 < n)%Z -> 0 < size ->
  mesh_and_refine fuel p = Ret m ->
  coordinates (uniform_mesh n size) `sublist_of` coordinates m /\
  forall q, In q (coordinates m) ->
    In q (coordinates (uniform_mesh n size)) \/
    Exists (fun r => q < r_x r) refinements.
Proof.
  intros Hn Hs Hr Hpos Hsize Hret.
  rewrite (mesh_and_refine_positive fuel p n size) in Hret by assumption.
  rewrite Hr in Hret.
  apply (refine_for_vertices (fun _ _ => True) fuel refinements
           (fun a b _ => conj I I) n (uniform_mesh n size) m 0 size);
    [| exact Hret].
  apply (mesh_chain_impl Qlt); [intros a b _; exact I |].
  apply uniform_mesh_chain; assumption.
Qed.

(** X21.  Let the library's midpoint of two end points lie between them.
    Refinement does not move the ends of the domain: on every mesh
    [mesh_and_refine] returns for a size above the tolerance of [near],
    the first vertex is tagged 1 and the last vertex is tagged 2,
    whatever the refinements and the materials. *)
Theorem mesh_and_refine_boundary_facets fuel p n size m materials :
  midpoint_between Qle ->
  p_initial_number_of_cells p = Some n ->
  p_size p = Some size ->
  (0 < n)%Z -> DOLFIN_EPS < size ->
  mesh_and_refine fuel p = Ret m ->
  snd (subdomains_1D m materials size) !! 0%nat = Some 1%nat /\
  snd (subdomains_1D m materials size) !! (num_vertices m - 1)%nat
  = Some 2%nat.
Proof.
  intros Hmid Hn Hs Hpos Heps Hret.
  assert (Hsize : 0 < size) by (unfold DOLFIN_EPS in Heps; lra).
  assert (Hm : mesh_chain Qle m 0 size).
  { apply (mesh_and_refine_chain Qle fuel p n size m Hmid); try assumption.
    apply mesh_chain_lt_le, uniform_mesh_chain; assumption. }
  destruct Hm as (q & rest & Hc & _ & _ & Hlo & Hhi).
  assert (Hnv : num_vertices m = S (length rest))
    by (unfold num_vertices; rewrite Hc; reflexivity).
  rewrite !subdomains_1D_facet by lia.
  unfold facet_tag, coord. rewrite Hnv, Hc.
  replace (S (length rest) - 1)%nat with (length rest) by lia.
  rewrite nth_last_cons. cbn [nth]. split.
  - rewrite near_far_below by lra. rewrite near_self by exact Hlo. reflexivity.
  - rewrite near_self by exact Hhi. reflexivity.
Qed.

End Library.

(** * Examples

    The properties above hold for every midpoint function of the
    library; the examples run the code with the exact mean. *)

Lemma exact_midpoint_between_le : midpoint_between exact_midpoint Qle.
Proof.
  intros a b H. unfold exact_midpoint, Qdiv. change (/ 2) with (1 # 2).
  split; lra.
Qed.

Lemma exact_midpoint_between_lt : midpoint_between exact_midpoint Qlt.
Proof.
  intros a b H. unfold exact_midpoint, Qdiv. change (/ 2) with (1 # 2).
  split; lra.
Qed.

Lemma mesh_and_refine_reaches_target_witness :
  exists fuel m,
    mesh_and_refine exact_midpoint fuel example_parameters = Ret m /\
    refined_in_turn exact_midpoint [ {| r_cells := 5; r_x := 3 # 10 |} ]
      (uniform_mesh 10 1) m.
Proof.
  apply (mesh_and_refine_reaches_target exact_midpoint example_parameters 10 1
           [ {| r_cells := 5; r_x := 3 # 10 |} ]);
    try reflexivity.
  - exact exact_midpoint_between_le.
  - constructor; [vm_compute; reflexivity | constructor].
Defined.

(** C1, counterexample.  On the configuration of the end-to-end
    scenario (10 cells over [[0, 1]], 5 more cells left of [0.3]) the
    loop ends with 19 cells, never with 15: the point is vertex 3 of the
    initial mesh, a pass bisects every cell left of it, and the count
    goes from 10 to 13 to 19.  This holds with the exact mean and with
    every midpoint that lies strictly between the end points.  And with
    the point [0.01], strictly inside [(0, 1)], the loop never ends,
    with the exact mean and with every midpoint that lies between the
    end points and is not left of [0.01] on the first cell. *)
Lemma mesh_and_refine_example_not_15 :
  (exists m, mesh_and_refine exact_midpoint 3 example_parameters = Ret m /\
             num_cells m = 19%nat /\ num_cells m <> 15%nat) /\
  (forall midpoint_x, midpoint_between midpoint_x Qlt ->
     forall fuel m, mesh_and_refine midpoint_x fuel example_parameters = Ret m ->
                    num_cells m = 19%nat) /\
  (forall fuel,
     mesh_and_refine exact_midpoint fuel example_parameters_near_origin
     = OutOfFuel) /\
  (forall midpoint_x, midpoint_between midpoint_x Qle ->
     1 # 100 <= cell_midpoint midpoint_x (uniform_mesh 10 1) 0 ->
     forall fuel,
       mesh_and_refine midpoint_x fuel example_parameters_near_origin
       = OutOfFuel).
Proof.
  assert (Hstuck : forall midpoint_x, midpoint_between midpoint_x Qle ->
            1 # 100 <= cell_midpoint midpoint_x (uniform_mesh 10 1) 0 ->
            forall fuel,
              mesh_and_refine midpoint_x fuel example_parameters_near_origin
              = OutOfFuel).
  { intros midpoint_x Hmid Hfirst fuel.
    rewrite (mesh_and_refine_positive midpoint_x fuel _ 10 1) by reflexivity.
    cbn [p_refinements example_parameters_near_origin refine_for r_cells r_x].
    rewrite (refine_while_stuck midpoint_x); [reflexivity | |].
    - apply (chain_no_progress midpoint_x _ 0 1); [exact Hmid | | exact Hfirst].
      apply mesh_chain_lt_le, uniform_mesh_chain; reflexivity.
    - rewrite uniform_mesh_num_cells. reflexivity. }
  split; [| split; [| split]].
  - eexists. split; [vm_compute; reflexivity |].
    split; [reflexivity | vm_compute; discriminate].
  - intros midpoint_x Hmid fuel m Hret.
    destruct (refine_while_at_vertex midpoint_x (3 # 10) 15 0 1 Hmid 5
                (uniform_mesh 10 1) 3)
      as (j & m' & Hw & Hc & Ht & Hmin).
    + apply uniform_mesh_chain; reflexivity.
    + lia.
    + rewrite uniform_mesh_num_cells. vm_compute. lia.
    + reflexivity.
    + rewrite uniform_mesh_num_cells. vm_compute. discriminate.
    + rewrite (mesh_and_refine_positive midpoint_x fuel _ 10 1) in Hret
        by reflexivity.
      cbn [p_refinements example_parameters refine_for r_cells r_x] in Hret.
      change (10 + 5)%Z with 15%Z in Hret.
      destruct (refine_while midpoint_x fuel 15 (3 # 10) (uniform_mesh 10 1))
        as [m1 | |] eqn:E; try discriminate.
      cbn [bind] in Hret. injection Hret as <-.
      assert (Em : m1 = m').
      { destruct (Nat.le_ge_cases fuel 6) as [Hle | Hle].
        - rewrite (refine_while_fuel_mono midpoint_x _ _ _ _ _ _ E Hle) in Hw.
          congruence.
        - rewrite (refine_while_fuel_mono midpoint_x _ _ _ _ _ _ Hw Hle) in E.
          congruence. }
      rewrite Em, Hc. rewrite Hc in Ht.
      rewrite uniform_mesh_num_cells in *.
      change (Z.to_nat 10) with 10%nat in *.
      destruct j as [| [| [| j]]].
      * simpl in Ht. lia.
      * simpl in Ht. lia.
      * reflexivity.
      * exfalso. destruct Hmin as [Hj | Hmin]; [discriminate |].
        replace (S (S (S j)) - 1)%nat with (S (S j)) in Hmin by lia.
        rewrite !Nat.pow_succ_r' in Hmin.
        pose proof (Nat.pow_nonzero 2 j). lia.
  - apply (Hstuck exact_midpoint exact_midpoint_between_le).
    vm_compute. discriminate.
  - exact Hstuck.
Qed.

Lemma mesh_and_refine_uniform_mesh_witness :
  (mesh_and_refine exact_midpoint 0
     (mkMeshParameters None None None None (Some 1) None None None None None)
   = Raise (KeyError "initial_number_of_cells")) /\
  (mesh_and_refine exact_midpoint 0
     (mkMeshParameters None None None (Some 4%Z) None None None None None None)
   = Raise (KeyError "size")) /\
  (exists msg,
     mesh_and_refine exact_midpoint 0
       (mkMeshParameters None None None (Some 0%Z) (Some 1) None None None None None)
     = Raise (RuntimeError msg)) /\
  (exists m,
     mesh_and_refine exact_midpoint 0
       (mkMeshParameters None None None (Some 4%Z) (Some 2) None None None None None)
     = Ret m /\
     num_cells m = 4%nat /\ coord m 4 == 2 /\
     coord m 3 - coord m 2 == 2 / inject_Z 4).
Proof.
  split; [| split; [| split]].
  - apply (mesh_and_refine_uniform_mesh exact_midpoint 0
             (mkMeshParameters None None None None (Some 1) None None None None None)).
    reflexivity.
  - apply (mesh_and_refine_uniform_mesh exact_midpoint 0
             (mkMeshParameters None None None (Some 4%Z) None None None None None None)
          ) with (n := 4%Z); reflexivity.
  - apply (mesh_and_refine_uniform_mesh exact_midpoint 0
             (mkMeshParameters None None None (Some 0%Z) (Some 1) None None None None None)
          ) with (n := 0%Z) (size := 1); try reflexivity.
    left. discriminate.
  - destruct (mesh_and_refine_uniform_mesh exact_midpoint 0
                (mkMeshParameters None None None (Some 4%Z) (Some 2) None None None None None))
      as (_ & _ & _ & H).
    destruct (H 4%Z 2) as (m & _ & Hm & _ & Hc & _ & Hsize & _ & Hcell);
      try reflexivity.
    exists m. split; [exact Hm |]. split; [exact Hc |]. split; [exact Hsize |].
    apply (Hcell 2%nat). vm_compute. lia.
Defined.

Lemma refine_while_needs_progress_witness :
  (exists c, In c (cells (uniform_mesh 10 1)) /\
             midpoint exact_midpoint (uniform_mesh 10 1) c < 3 # 10) /\
  (forall fuel,
     mesh_and_refine exact_midpoint fuel example_parameters_at_origin
     = OutOfFuel).
Proof.
  destruct (refine_while_needs_progress exact_midpoint) as [Hprogress Hstuck].
  split.
  - apply (Hprogress 15%Z (3 # 10) (uniform_mesh 10 1) 3%nat
             (refine_step exact_midpoint
                (refine_step exact_midpoint (uniform_mesh 10 1) (3 # 10))
                (3 # 10))).
    + vm_compute. reflexivity.
    + apply visited_start.
    + vm_compute. reflexivity.
  - apply (Hstuck example_parameters_at_origin 10%Z 1 1%Z 0);
      try reflexivity; try discriminate.
    exact exact_midpoint_between_le.
Defined.

Lemma generate_mesh_from_vertices_spec_witness :
  exists m,
    generate_mesh_from_vertices [3; 1; 2; 1 # 2; 2 # 4; 1] = Ret m /\
    num_vertices m = 4%nat /\
    StronglySorted Qlt (coordinates m) /\
    num_cells m = 3%nat /\
    cells m !! 2%nat = Some (2%nat, 3%nat).
Proof.
  destruct (generate_mesh_from_vertices_spec [3; 1; 2; 1 # 2; 2 # 4; 1])
    as (m & Hm & Hv & Hs & _ & Hc & Hj & _); [discriminate |].
  exists m. split; [exact Hm |]. split; [exact Hv |]. split; [exact Hs |].
  split; [exact Hc |]. apply Hj. vm_compute. lia.
Defined.

Lemma create_mesh_precedence_witness :
  create_mesh exact_midpoint no_file 0
    (mkMeshParameters (Some "mesh.xdmf") (Some (IsMesh two_cells)) (Some [0; 1])
                      (Some 4%Z) (Some 1) None None None None None)
  = no_file "mesh.xdmf" /\
  create_mesh exact_midpoint no_file 0
    (mkMeshParameters None (Some (IsMesh two_cells)) (Some [0; 1])
                      (Some 4%Z) (Some 1) None None None None None)
  = Ret two_cells /\
  create_mesh exact_midpoint no_file 0
    (mkMeshParameters None (Some NotAMesh) (Some [0; 1])
                      (Some 4%Z) (Some 1) None None None None None)
  = generate_mesh_from_vertices [0; 1] /\
  create_mesh exact_midpoint no_file 0
    (mkMeshParameters None None None (Some 4%Z) (Some 1) None None None None None)
  = mesh_and_refine exact_midpoint 0
      (mkMeshParameters None None None (Some 4%Z) (Some 1) None None None None None) /\
  (exists key,
     create_mesh exact_midpoint no_file 0
       (mkMeshParameters None None None None None None None None None None)
     = Raise (KeyError key)).
Proof.
  split; [| split; [| split; [| split]]].
  - apply (create_mesh_precedence exact_midpoint no_file 0
             (mkMeshParameters (Some "mesh.xdmf") (Some (IsMesh two_cells))
                (Some [0; 1]) (Some 4%Z) (Some 1) None None None None None)).
    reflexivity.
  - apply (create_mesh_precedence exact_midpoint no_file 0
             (mkMeshParameters None (Some (IsMesh two_cells))
                (Some [0; 1]) (Some 4%Z) (Some 1) None None None None None));
      reflexivity.
  - apply (create_mesh_precedence exact_midpoint no_file 0
             (mkMeshParameters None (Some NotAMesh)
                (Some [0; 1]) (Some 4%Z) (Some 1) None None None None None));
      try reflexivity.
    right. reflexivity.
  - apply (create_mesh_precedence exact_midpoint no_file 0
             (mkMeshParameters None None None (Some 4%Z) (Some 1)
                None None None None None));
      try reflexivity.
    left. reflexivity.
  - apply (create_mesh_precedence exact_midpoint no_file 0
             (mkMeshParameters None None None None None None None None None None));
      try reflexivity; left; reflexivity.
Defined.

Lemma subdomains_1D_single_material_witness :
  fst (subdomains_1D exact_midpoint three_cells [lone_material] 3) !! 1%nat = Some 5%nat /\
  snd (subdomains_1D exact_midpoint three_cells [lone_material] 3) !! 3%nat = Some 2%nat /\
  snd (subdomains_1D exact_midpoint three_cells [lone_material] 3) !! 0%nat = Some 1%nat /\
  snd (subdomains_1D exact_midpoint three_cells [lone_material] 3) !! 2%nat = Some 0%nat.
Proof.
  destruct (subdomains_1D_single_material exact_midpoint three_cells lone_material 3)
    as (_ & _ & Hcell & Hfacet).
  split; [apply Hcell; vm_compute; lia |].
  split; [| split].
  - apply (Hfacet 3%nat); [vm_compute; lia | reflexivity].
  - apply (Hfacet 0%nat); [vm_compute; lia | reflexivity | reflexivity].
  - apply (Hfacet 2%nat); [vm_compute; lia | reflexivity | reflexivity].
Defined.

(** C7, counterexample.  For the vertex list [[0, 1e-16]] the domain
    size is the largest vertex, [1e-16]; the facet at [0] coincides with
    position [0] within the tolerance and is tagged 2, not 1.  The same
    happens, whatever the tolerance, for the vertex list [[-1, 0]], whose
    largest vertex is [0]. *)
Lemma facet_at_origin_tagged_2 :
  (exists mesh size,
     generate_mesh_from_vertices [0; 1 # 10000000000000000] = Ret mesh /\
     py_max [0; 1 # 10000000000000000] = Ret size /\
     0 < size /\
     coord mesh 0 == 0 /\
     near (coord mesh 0) 0 = true /\
     snd (subdomains_1D exact_midpoint mesh [lone_material] size) !! 0%nat = Some 2%nat /\
     snd (subdomains_1D exact_midpoint mesh [lone_material] size) !! 0%nat <> Some 1%nat) /\
  (exists mesh size,
     generate_mesh_from_vertices [-1; 0] = Ret mesh /\
     py_max [-1; 0] = Ret size /\
     coord mesh 1 == 0 /\
     snd (subdomains_1D exact_midpoint mesh [lone_material] size) !! 1%nat = Some 2%nat).
Proof.
  split.
  - eexists. eexists.
    split; [vm_compute; reflexivity |].
    split; [vm_compute; reflexivity |].
    split; [reflexivity |].
    split; [reflexivity |].
    split; [vm_compute; reflexivity |].
    split; [vm_compute; reflexivity |].
    vm_compute. discriminate.
  - eexists. eexists.
    split; [vm_compute; reflexivity |].
    split; [vm_compute; reflexivity |].
    split; [reflexivity |].
    vm_compute. reflexivity.
Qed.

Lemma subdomains_1D_multiple_materials_witness :
  (exists material,
     In material gapped_materials /\
     fst (subdomains_1D exact_midpoint three_cells gapped_materials 3) !! 0%nat
     = Some (m_id material)) /\
  fst (subdomains_1D exact_midpoint three_cells gapped_materials 3) !! 1%nat = Some 0%nat.
Proof.
  split.
  - destruct (subdomains_1D_multiple_materials exact_midpoint three_cells gapped_materials 3 0)
      as (_ & Hcovered & _); [discriminate | vm_compute; lia |].
    destruct Hcovered as (material & Hin & _ & _ & Htag).
    + exists (mkMaterial 7 (PyInt 0, PyInt 1)).
      split; [left; reflexivity |]. split; vm_compute; discriminate.
    + exists material. split; [exact Hin | exact Htag].
  - destruct (subdomains_1D_multiple_materials exact_midpoint three_cells gapped_materials 3 1)
      as (_ & _ & Huncovered); [discriminate | vm_compute; lia |].
    apply Huncovered.
    intros material [<- | [<- | []]] [Hlo Hhi]; vm_compute in Hlo, Hhi; auto.
Defined.

Lemma subdomains_size_from_vertices_witness :
  (exists size,
     py_max [0; 3; 1; 2] = Ret size /\ size == 3 /\
     subdomains exact_midpoint no_marker_file three_cells
       (mkParameters vertices_parameters two_materials)
     = validate_and_tag exact_midpoint three_cells two_materials size /\
     subdomains exact_midpoint no_marker_file three_cells
       (mkParameters (with_size vertices_parameters None) two_materials)
     = validate_and_tag exact_midpoint three_cells two_materials size) /\
  subdomains exact_midpoint no_marker_file three_cells
    (mkParameters vertices_parameters two_materials)
  = Ret (IsMeshFunction [1; 2; 2]%nat, IsMeshFunction [1; 0; 0; 2]%nat) /\
  subdomains exact_midpoint no_marker_file three_cells
    (mkParameters
       (mkMeshParameters None None None None (Some 3) None None None None None)
       two_materials)
  = validate_and_tag exact_midpoint three_cells two_materials 3.
Proof.
  split; [| split].
  - destruct (subdomains_size_from_vertices exact_midpoint no_marker_file three_cells
                vertices_parameters two_materials)
      as [Hvertices _]; [reflexivity | left; reflexivity |].
    destruct (Hvertices [0; 3; 1; 2]) as (size & Hmax & _ & _ & Hsub & Hany);
      [reflexivity | discriminate |].
    exists size. split; [exact Hmax |].
    split; [injection Hmax as <-; reflexivity |].
    split; [exact Hsub | apply Hany].
  - vm_compute. reflexivity.
  - destruct (subdomains_size_from_vertices exact_midpoint no_marker_file three_cells
                (mkMeshParameters None None None None (Some 3) None None None None None)
                two_materials)
      as [_ Hsize]; [reflexivity | left; reflexivity |].
    apply Hsize; reflexivity.
Defined.

Lemma refine_while_returns_at_target_witness :
  (15 <= Z.of_nat
           (num_cells
              (refine_step exact_midpoint
                 (refine_step exact_midpoint (uniform_mesh 10 1) (3 # 10))
                 (3 # 10))))%Z /\
  (num_cells (uniform_mesh 10 1)
   <= num_cells
        (refine_step exact_midpoint
           (refine_step exact_midpoint (uniform_mesh 10 1) (3 # 10))
           (3 # 10)))%nat.
Proof.
  apply (refine_while_returns_at_target exact_midpoint 3 15 (3 # 10)
           (uniform_mesh 10 1)).
  vm_compute. reflexivity.
Defined.

Lemma refine_while_overshoot_bound_witness :
  (Z.of_nat
     (num_cells
        (refine_step exact_midpoint
           (refine_step exact_midpoint (uniform_mesh 10 1) (3 # 10))
           (3 # 10)))
   <= Z.max (Z.of_nat (num_cells (uniform_mesh 10 1))) (2 * (15 - 1)))%Z.
Proof.
  apply (refine_while_overshoot_bound exact_midpoint 3 15 (3 # 10)
           (uniform_mesh 10 1)).
  vm_compute. reflexivity.
Defined.

Lemma mesh_and_refine_nothing_requested_witness :
  mesh_and_refine exact_midpoint 1
    (mkMeshParameters None None None (Some 4%Z) (Some 2)
       (Some [ mkRefinement 0 (1 # 2); mkRefinement (-3) 7 ])
       None None None None)
  = IntervalMesh 4 0 2.
Proof.
  apply (mesh_and_refine_nothing_requested exact_midpoint 0
           (mkMeshParameters None None None (Some 4%Z) (Some 2)
              (Some [ mkRefinement 0 (1 # 2); mkRefinement (-3) 7 ])
              None None None None)
           4%Z 2 [ mkRefinement 0 (1 # 2); mkRefinement (-3) 7 ]);
    try reflexivity.
  repeat constructor; discriminate.
Defined.

Lemma mesh_and_refine_interval_mesh_witness :
  exists m,
    mesh_and_refine exact_midpoint 3 example_parameters = Ret m /\
    interval_mesh_on m 0 1 /\
    num_vertices m = S (num_cells m).
Proof.
  destruct (mesh_and_refine exact_midpoint 3 example_parameters)
    as [m | |] eqn:E; try (vm_compute in E; discriminate E).
  exists m. split; [reflexivity |].
  destruct (mesh_and_refine_interval_mesh exact_midpoint 3 example_parameters
              10 1 m exact_midpoint_between_lt)
    as (Hm & Hnv & _); try reflexivity; try exact E.
  split; [exact Hm | exact Hnv].
Defined.

Lemma mesh_and_refine_beyond_domain_witness :
  exists k fuel m,
    mesh_and_refine exact_midpoint fuel
      (mkMeshParameters None None None (Some 3%Z) (Some 1)
         (Some [ mkRefinement 4 1 ]) None None None None)
    = Ret m /\
    num_cells m = (Z.to_nat 3 * 2 ^ k)%nat /\
    (3 + 4 <= Z.of_nat (Z.to_nat 3 * 2 ^ k))%Z /\
    (k = O \/ (Z.of_nat (Z.to_nat 3 * 2 ^ (k - 1)) < 3 + 4)%Z).
Proof.
  apply (mesh_and_refine_beyond_domain exact_midpoint
           (mkMeshParameters None None None (Some 3%Z) (Some 1)
              (Some [ mkRefinement 4 1 ]) None None None None)
           3%Z 1 4%Z 1 exact_midpoint_between_lt); try reflexivity.
  discriminate.
Defined.

Lemma check_borders_true_or_raises_witness :
  (exists msg, check_borders 1 [] = Raise (IndexError msg)) /\
  (check_borders 3 two_materials = Ret true \/
   check_borders 3 two_materials = Raise (ValueError msg_begin_at_zero) \/
   check_borders 3 two_materials = Raise (ValueError msg_match_each_other) \/
   check_borders 3 two_materials = Raise (ValueError msg_match_size)).
Proof.
  split.
  - apply (check_borders_true_or_raises 1 []). reflexivity.
  - apply (check_borders_true_or_raises 3 two_materials). discriminate.
Defined.

Lemma check_borders_covers_witness :
  exists material,
    In material two_materials /\
    num_val (fst (m_borders material)) <= 5 # 2 /\
    5 # 2 <= num_val (snd (m_borders material)).
Proof.
  apply (check_borders_covers 3 two_materials (5 # 2));
    [reflexivity | discriminate | discriminate].
Defined.

Lemma check_borders_total_width_witness : total_width two_materials == 3.
Proof.
  apply (check_borders_total_width 3 two_materials). reflexivity.
Defined.

Lemma subdomains_tags_every_cell_witness :
  check_borders 3 two_materials = Ret true /\
  exists tags,
    IsMeshFunction
      (fst (subdomains_1D exact_midpoint (uniform_mesh 3 3) two_materials 3))
    = IsMeshFunction tags /\
    length tags = num_cells (uniform_mesh 3 3) /\
    forall cell, (cell < num_cells (uniform_mesh 3 3))%nat ->
      exists material,
        In material two_materials /\
        num_val (fst (m_borders material))
        <= cell_midpoint exact_midpoint (uniform_mesh 3 3) cell /\
        cell_midpoint exact_midpoint (uniform_mesh 3 3) cell
        <= num_val (snd (m_borders material)) /\
        tags !! cell = Some (m_id material).
Proof.
  apply (subdomains_tags_every_cell exact_midpoint no_marker_file 0
           three_cells_parameters two_materials (uniform_mesh 3 3) 3%Z 3
           (IsMeshFunction
              (fst (subdomains_1D exact_midpoint (uniform_mesh 3 3)
                      two_materials 3)))
           (IsMeshFunction
              (snd (subdomains_1D exact_midpoint (uniform_mesh 3 3)
                      two_materials 3))));
    try reflexivity.
  - exact exact_midpoint_between_le.
  - left. reflexivity.
  - vm_compute. lia.
Defined.

Lemma subdomains_1D_last_material_wins_witness :
  fst (subdomains_1D exact_midpoint two_cells
         ([ mkMaterial 4 (PyInt 0, PyInt 2) ]
          ++ mkMaterial 6 (PyFloat (1 # 2), PyInt 1)
          :: [ mkMaterial 8 (PyInt 1, PyInt 2) ])%list 2) !! 0%nat
  = Some 6%nat.
Proof.
  apply (subdomains_1D_last_material_wins exact_midpoint two_cells
           [ mkMaterial 4 (PyInt 0, PyInt 2) ]
           (mkMaterial 6 (PyFloat (1 # 2), PyInt 1))
           [ mkMaterial 8 (PyInt 1, PyInt 2) ] 2 0).
  - discriminate.
  - vm_compute. lia.
  - reflexivity.
  - intros later [<- | []]. reflexivity.
Defined.

Lemma subdomains_1D_uniform_facets_witness :
  snd (subdomains_1D exact_midpoint (uniform_mesh 4 2) two_materials 2) !! 4%nat
  = Some (if (4 =? 0)%nat then 1%nat
          else if (4 =? Z.to_nat 4)%nat then 2%nat else 0%nat).
Proof.
  apply (subdomains_1D_uniform_facets exact_midpoint 4 2 two_materials 4);
    [reflexivity | reflexivity | reflexivity | vm_compute; lia].
Defined.

Lemma read_subdomains_from_xdmf_errors_witness :
  read_subdomains_from_xdmf one_marker_file two_cells "absent.xdmf" "cells.xdmf"
  = Raise (ValueError (msg_attribute_f "absent.xdmf")) /\
  read_subdomains_from_xdmf one_marker_file two_cells "cells.xdmf" "absent.xdmf"
  = Raise (ValueError (msg_attribute_f "absent.xdmf")) /\
  read_subdomains_from_xdmf one_marker_file two_cells "cells.xdmf" "cells.xdmf"
  = Ret (IsMeshFunction [1; 1; 2]%nat, IsMeshFunction [1; 1; 2]%nat) /\
  (ValueError (msg_attribute_f "absent.xdmf")
   = ValueError (msg_attribute_f "absent.xdmf") \/
   ValueError (msg_attribute_f "absent.xdmf")
   = ValueError (msg_attribute_f "cells.xdmf")).
Proof.
  destruct (read_subdomains_from_xdmf_errors one_marker_file two_cells
              "absent.xdmf" "cells.xdmf") as (Hvol & _ & _ & Hany).
  destruct (read_subdomains_from_xdmf_errors one_marker_file two_cells
              "cells.xdmf" "absent.xdmf") as (_ & Hbnd & _ & _).
  destruct (read_subdomains_from_xdmf_errors one_marker_file two_cells
              "cells.xdmf" "cells.xdmf") as (_ & _ & Hok & _).
  split; [apply (Hvol (RuntimeError "unable to read the attribute")); reflexivity |].
  split; [apply (Hbnd [1; 1; 2]%nat (RuntimeError "unable to read the attribute"));
          reflexivity |].
  split; [apply Hok; reflexivity |].
  apply Hany. reflexivity.
Defined.

Lemma subdomains_marker_source_witness :
  subdomains exact_midpoint (read_subdomains_from_xdmf one_marker_file) two_cells
    (mkParameters
       (mkMeshParameters None None None None None None
          (Some "cells.xdmf") (Some "cells.xdmf") None None)
       unmatched_materials)
  = read_subdomains_from_xdmf one_marker_file two_cells "cells.xdmf" "cells.xdmf" /\
  subdomains exact_midpoint (read_subdomains_from_xdmf one_marker_file) two_cells
    (mkParameters
       (mkMeshParameters None None None None None None
          (Some "cells.xdmf") None None None)
       unmatched_materials)
  = Raise (KeyError "facets_file") /\
  subdomains exact_midpoint no_marker_file two_cells
    (mkParameters handed_over_parameters unmatched_materials)
  = Ret (IsMeshFunction [3; 4]%nat, NotAMeshFunction) /\
  subdomains exact_midpoint no_marker_file two_cells
    (mkParameters
       (mkMeshParameters None None None None None None None None
          (Some (IsMeshFunction [3; 4]%nat)) None)
       unmatched_materials)
  = Raise (KeyError "meshfunction_facets").
Proof.
  split; [| split; [| split]].
  - destruct (subdomains_marker_source exact_midpoint (read_subdomains_from_xdmf one_marker_file)
                two_cells
                (mkMeshParameters None None None None None None
                   (Some "cells.xdmf") (Some "cells.xdmf") None None)
                unmatched_materials) as (Hfiles & _).
    apply Hfiles; reflexivity.
  - destruct (subdomains_marker_source exact_midpoint (read_subdomains_from_xdmf one_marker_file)
                two_cells
                (mkMeshParameters None None None None None None
                   (Some "cells.xdmf") None None None)
                unmatched_materials) as (_ & Hmissing & _).
    apply (Hmissing "cells.xdmf"); reflexivity.
  - destruct (subdomains_marker_source exact_midpoint no_marker_file two_cells
                handed_over_parameters unmatched_materials)
      as (_ & _ & Hhanded & _).
    apply Hhanded; reflexivity.
  - destruct (subdomains_marker_source exact_midpoint no_marker_file two_cells
                (mkMeshParameters None None None None None None None None
                   (Some (IsMeshFunction [3; 4]%nat)) None)
                unmatched_materials) as (_ & _ & _ & Hmissing).
    apply (Hmissing [3; 4]%nat); reflexivity.
Defined.

Lemma subdomains_single_material_unchecked_witness :
  subdomains exact_midpoint no_marker_file three_cells
    (mkParameters three_cells_parameters [ mkMaterial 5 (PyFloat 7, PyInt (-1)) ])
  = Ret (IsMeshFunction (replicate (num_cells three_cells) 5%nat),
         IsMeshFunction
           (snd (subdomains_1D exact_midpoint three_cells
                   [ mkMaterial 5 (PyFloat 7, PyInt (-1)) ] 3))).
Proof.
  apply (subdomains_single_material_unchecked exact_midpoint no_marker_file three_cells
           three_cells_parameters (mkMaterial 5 (PyFloat 7, PyInt (-1))) 3);
    try reflexivity.
  left. reflexivity.
Defined.

Lemma generate_mesh_from_vertices_round_trip_witness :
  generate_mesh_from_vertices [1 # 2; 1; 2; 3]
  = Ret {| coordinates := [1 # 2; 1; 2; 3];
           cells := [(0, 1); (1, 2); (2, 3)]%nat |}.
Proof.
  apply (generate_mesh_from_vertices_round_trip [3; 1; 2; 1 # 2; 2 # 4; 1]
           {| coordinates := [1 # 2; 1; 2; 3];
              cells := [(0, 1); (1, 2); (2, 3)]%nat |}).
  vm_compute. reflexivity.
Defined.

Lemma generate_mesh_from_vertices_extent_witness :
  exists mesh size,
    generate_mesh_from_vertices [3; 0; 1; 3] = Ret mesh /\
    py_max [3; 0; 1; 3] = Ret size /\
    coord mesh (num_vertices mesh - 1) == size /\
    InA Qeq (coord mesh 0) [3; 0; 1; 3] /\
    snd (subdomains_1D exact_midpoint mesh two_materials size)
      !! (num_vertices mesh - 1)%nat
    = Some 2%nat.
Proof.
  destruct (generate_mesh_from_vertices_extent exact_midpoint [3; 0; 1; 3])
    as (mesh & size & Hmesh & Hmax & Hlast & Hfirst & _ & _ & Htag);
    [discriminate |].
  exists mesh, size. split; [exact Hmesh |]. split; [exact Hmax |].
  split; [exact Hlast |]. split; [exact Hfirst | apply Htag].
Defined.

Lemma subdomains_tags_every_cell_of_vertices_witness :
  exists size tags,
    py_max [3; 0; 1; 3] = Ret size /\
    check_borders size two_materials = Ret true /\
    IsMeshFunction
      (fst (subdomains_1D exact_midpoint
              {| coordinates := [0; 1; 3]; cells := [(0, 1); (1, 2)]%nat |}
              two_materials 3))
    = IsMeshFunction tags /\
    length tags = 2%nat.
Proof.
  destruct (subdomains_tags_every_cell_of_vertices exact_midpoint
              no_marker_file
              positive_vertices_parameters two_materials [3; 0; 1; 3]
              {| coordinates := [0; 1; 3]; cells := [(0, 1); (1, 2)]%nat |}
              (IsMeshFunction
                 (fst (subdomains_1D exact_midpoint
                         {| coordinates := [0; 1; 3];
                            cells := [(0, 1); (1, 2)]%nat |}
                         two_materials 3)))
              (IsMeshFunction
                 (snd (subdomains_1D exact_midpoint
                         {| coordinates := [0; 1; 3];
                            cells := [(0, 1); (1, 2)]%nat |}
                         two_materials 3))))
    as (size & tags & Hmax & Hcheck & Htags & Hlen & _).
  - exact exact_midpoint_between_le.
  - reflexivity.
  - left. reflexivity.
  - reflexivity.
  - intros v [<- | [<- | [<- | [<- | []]]]]; discriminate.
  - vm_compute. reflexivity.
  - vm_compute. lia.
  - vm_compute. reflexivity.
  - exists size, tags. repeat split; assumption.
Defined.

Lemma check_borders_passes_iff_witness : check_borders 3 two_materials = Ret true.
Proof.
  apply (proj2 (check_borders_passes_iff 3 two_materials)).
  exists (PyInt 0, PyInt 1), [ (PyInt 1, PyInt 3) ].
  split; [reflexivity |]. split; [reflexivity |].
  split; [split; [reflexivity | exact I] | reflexivity].
Defined.

Lemma mesh_and_refine_at_vertex_witness :
  exists j fuel m,
    mesh_and_refine exact_midpoint fuel example_parameters = Ret m /\
    num_cells m = (Z.to_nat 10 + 3 * (2 ^ j - 1))%nat /\
    (10 + 5 <= Z.of_nat (num_cells m))%Z /\
    (j = O \/ (Z.of_nat (Z.to_nat 10 + 3 * (2 ^ (j - 1) - 1)) < 10 + 5)%Z) /\
    (forall fuel' m',
       mesh_and_refine exact_midpoint fuel' example_parameters = Ret m' ->
       m' = m).
Proof.
  apply (mesh_and_refine_at_vertex exact_midpoint example_parameters 10 1 5
           (3 # 10) 3 exact_midpoint_between_lt); try reflexivity.
  - lia.
  - vm_compute. lia.
Defined.

Lemma mesh_and_refine_terminates_iff_witness :
  (exists fuel m,
     mesh_and_refine exact_midpoint fuel example_parameters = Ret m) <->
  cell_midpoint exact_midpoint (uniform_mesh 10 1) 0 < 3 # 10.
Proof.
  apply (mesh_and_refine_terminates_iff exact_midpoint example_parameters 10 1
           5 (3 # 10) exact_midpoint_between_le); try reflexivity.
  discriminate.
Defined.

Lemma mesh_and_refine_adds_vertices_left_witness :
  exists m,
    mesh_and_refine exact_midpoint 3 example_parameters = Ret m /\
    coordinates (uniform_mesh 10 1) `sublist_of` coordinates m /\
    forall q, In q (coordinates m) ->
      In q (coordinates (uniform_mesh 10 1)) \/
      Exists (fun r => q < r_x r) [ {| r_cells := 5; r_x := 3 # 10 |} ].
Proof.
  destruct (mesh_and_refine exact_midpoint 3 example_parameters)
    as [m | |] eqn:E; try (vm_compute in E; discriminate E).
  exists m. split; [reflexivity |].
  apply (mesh_and_refine_adds_vertices_left exact_midpoint 3
           example_parameters 10 1 [ {| r_cells := 5; r_x := 3 # 10 |} ] m);
    try reflexivity.
  exact E.
Defined.

Lemma mesh_and_refine_boundary_facets_witness :
  exists m,
    mesh_and_refine exact_midpoint 3 example_parameters = Ret m /\
    snd (subdomains_1D exact_midpoint m two_materials 1) !! 0%nat
    = Some 1%nat /\
    snd (subdomains_1D exact_midpoint m two_materials 1)
      !! (num_vertices m - 1)%nat
    = Some 2%nat.
Proof.
  destruct (mesh_and_refine exact_midpoint 3 example_parameters)
    as [m | |] eqn:E; try (vm_compute in E; discriminate E).
  exists m. split; [reflexivity |].
  apply (mesh_and_refine_boundary_facets exact_midpoint 3 example_parameters
           10 1 m two_materials exact_midpoint_between_le); try reflexivity.
  exact E.
Defined.
